(** * Room registry and broadcast relay of [signaling/main.py]

    A shallow embedding of the WebSocket handler [ws_endpoint] and of the
    module-level dictionary [rooms], followed by the properties of the relay
    that the specification states.

    The handler is an [async] coroutine.  Under asyncio the code between two
    [await]s runs without interruption, and every other handler may run while a
    coroutine is suspended in an [await].  The embedding follows that shape:

    - the dictionary and set operations the handler performs are functions on
      a finite map, with the exceptions Python raises written out;
    - the coroutine is cut at its three [await]s ([accept], [receive_text],
      [send_text]) into a program counter and a transition function that runs
      one handler from the [await] it is suspended in to its next [await];
    - a schedule is a list of transport events, each resuming one handler. *)

From stdpp Require Import gmap strings list fin_maps.

(** ** Exceptions and results *)

(** The handler distinguishes three classes of exception:
    [WebSocketDisconnect] (caught by the outer [except]), the other subclasses
    of [Exception] (caught by the inner [except Exception] only), and the
    exceptions that derive from [BaseException] alone, which no clause of the
    handler catches.  [KeyError] is what subscripting a dictionary and
    [set.remove] raise; [RuntimeError] stands for every other [Exception];
    [CancelledError] stands for the [BaseException]-only class. *)
Inductive exn : Set :=
| WebSocketDisconnect
| KeyError
| RuntimeError
| CancelledError.

#[global] Instance exn_eq_dec : EqDecision exn.
Proof. solve_decision. Defined.

(** [isinstance(e, Exception)]. *)
Definition is_Exception (e : exn) : bool :=
  match e with
  | CancelledError => false
  | _ => true
  end.

(** [isinstance(e, WebSocketDisconnect)]. *)
Definition is_WebSocketDisconnect (e : exn) : bool :=
  match e with
  | WebSocketDisconnect => true
  | _ => false
  end.

Inductive result (A : Type) : Type :=
| Ok (a : A)
| Raise (e : exn).
Arguments Ok {A} a.
Arguments Raise {A} e.

Definition bind {A B : Type} (m : result A) (k : A → result B) : result B :=
  match m with
  | Ok a => k a
  | Raise e => Raise e
  end.

Declare Scope py_scope.
Delimit Scope py_scope with py.
Notation "'let!' x ':=' m 'in' k" := (bind m (fun x => k))
  (at level 10, x name, m at level 100, k at level 200,
   format "'[v' 'let!'  x  ':='  m  'in' '/' k ']'") : py_scope.
Local Open Scope py_scope.

(** ** The registry: [rooms: Dict[str, Set[WebSocket]] = {}] *)

(** A [WebSocket] object is compared and hashed by identity
    ([peer is not ws], membership in a [set]); a connection is its identity. *)
Abbreviation conn := nat (only parsing).
Abbreviation registry := (gmap string (gset nat)) (only parsing).

Module Py.

(** [k in d] *)
Definition contains (k : string) (d : registry) : bool :=
  bool_decide (is_Some (d !! k)).

(** [d[k]]: raises [KeyError] when [k] is absent. *)
Definition getitem (k : string) (d : registry) : result (gset conn) :=
  match d !! k with
  | Some s => Ok s
  | None => Raise KeyError
  end.

(** [d[k] = v] *)
Definition setitem (k : string) (v : gset conn) (d : registry) : registry :=
  <[k := v]> d.

(** [x in s] *)
Definition set_contains (x : conn) (s : gset conn) : bool :=
  bool_decide (x ∈ s).

(** [s.add(x)] *)
Definition set_add (x : conn) (s : gset conn) : gset conn :=
  s ∪ {[x]}.

(** [s.remove(x)]: raises [KeyError] when [x] is not a member. *)
Definition set_remove (x : conn) (s : gset conn) : result (gset conn) :=
  if bool_decide (x ∈ s) then Ok (s ∖ {[x]}) else Raise KeyError.

End Py.

(** The member set of a room as every reader of the registry sees it: the
    stored set, or no member at all for a key that is not there. *)
Definition members (room : string) (rooms : registry) : gset conn :=
  default ∅ (rooms !! room).

(** Lines 31-33:
<<
    if room not in rooms:
        rooms[room] = set()
    rooms[room].add(ws)
>>
    The sets stored in [rooms] are mutated in place and no two keys share a
    set object, so [add] on [rooms[room]] is an update of that key. *)
Definition join (room : string) (ws : conn) (rooms : registry)
  : result registry :=
  let rooms1 :=
    if negb (Py.contains room rooms) then Py.setitem room ∅ rooms else rooms in
  let! s := Py.getitem room rooms1 in
  Ok (Py.setitem room (Py.set_add ws s) rooms1).

(** Lines 53-54, the body of [finally]:
<<
    if room in rooms and ws in rooms[room]:
        rooms[room].remove(ws)
>>
    [and] evaluates its right operand only when the left one is true. *)
Definition leave (room : string) (ws : conn) (rooms : registry)
  : result registry :=
  let! guard :=
    (if Py.contains room rooms
     then let! s := Py.getitem room rooms in Ok (Py.set_contains ws s)
     else Ok false) in
  if (guard : bool)
  then
    let! s := Py.getitem room rooms in
    let! s' := Py.set_remove ws s in
    Ok (Py.setitem room s' rooms)
  else Ok rooms.

(** Line 41, [list(rooms.get(room, []))]: [dict.get] with a default never
    raises, and [list] copies the members into a fresh list, in the
    iteration order of the set (each member once). *)
Definition snapshot (room : string) (rooms : registry) : list conn :=
  match rooms !! room with
  | Some s => elements s
  | None => []
  end.

(** ** Connection setup *)

(** [ws.query_params.get(key, default)].  The query string is a list of
    key/value pairs; Starlette's [QueryParams] answers [get] from a dictionary
    built from that list, so the last pair for a key wins and the default is
    returned exactly when no pair has the key. *)
Fixpoint query_get (key default : string) (q : list (string * string))
  : string :=
  match q with
  | [] => default
  | (k, v) :: q' => query_get key (if decide (k = key) then v else default) q'
  end.

(** Line 27: [room = ws.query_params.get("room", "default")]. *)
Definition resolve_room (q : list (string * string)) : string :=
  query_get "room" "default" q.

(** ** The coroutine [ws_endpoint], cut at its [await]s *)

(** Where a handler is suspended, or how it ended.  [AwaitSend msg peer todo]
    is the [await peer.send_text(msg)] of line 44, [todo] being the part of the
    snapshot list that the [for] loop has not reached yet. *)
Inductive pc : Type :=
| AwaitAccept
| AwaitReceive
| AwaitSend (msg : string) (peer : conn) (todo : list conn)
| Returned
| Raised (e : exn).

(** One running [ws_endpoint(ws)]: its local variable [room] and its
    program counter. *)
Record task : Type := Task { room : string; at_pc : pc }.

(** What the handlers did, in the order they did it.  The log is not a
    variable of the program: it records the calls whose number and order the
    specification speaks of. *)
Inductive obs : Type :=
| ObsJoin (ws : conn) (room : string)
| ObsSend (sender peer : conn) (msg : string) (delivered : bool)
| ObsLeave (ws : conn) (room : string).

#[global] Instance obs_eq_dec : EqDecision obs.
Proof. solve_decision. Defined.

Record system : Type := System {
  rooms : gmap string (gset nat);
  tasks : gmap nat task;
  log : list obs
}.

(** Process start: [rooms = {}] and no connection. *)
Definition init : system := System ∅ ∅ [].

(** Lines 41-47, the [for] loop from the point where [todo] is left to
    visit up to its next [await]:
<<
    for peer in list(rooms.get(room, [])):
        if peer is not ws:
            try:
                await peer.send_text(msg)
>>
    When the list is exhausted the [while True] loop is back in
    [await ws.receive_text()]. *)
Fixpoint for_peers (ws : conn) (msg : string) (todo : list conn) : pc :=
  match todo with
  | [] => AwaitReceive
  | peer :: rest =>
      if decide (peer = ws) then for_peers ws msg rest
      else AwaitSend msg peer rest
  end.

(** Lines 48-54: an exception [e] leaves the [try] body.
<<
    except WebSocketDisconnect:
        pass
    finally:
        if room in rooms and ws in rooms[room]:
            rooms[room].remove(ws)
>>
    [finally] runs on every path; [e] is swallowed only when it is a
    [WebSocketDisconnect], and an exception raised by the cleanup itself
    would replace it. *)
Definition unwind (room : string) (ws : conn) (e : exn)
    (rooms : gmap string (gset nat)) : gmap string (gset nat) * pc :=
  match leave room ws rooms with
  | Ok rooms' =>
      (rooms', if is_WebSocketDisconnect e then Returned else Raised e)
  | Raise e' => (rooms, Raised e')
  end.

(** Transport events.  [Connect] is the framework calling [ws_endpoint] on a
    new [WebSocket]; the others complete the [await] a handler is suspended
    in, with the value or the exception of the awaited call. *)
Inductive event : Type :=
| Connect (ws : conn) (query : list (string * string))
| Accepted (ws : conn) (r : result unit)
| Received (ws : conn) (r : result string)
| Sent (ws : conn) (r : result unit).

(** The connection an event resumes. *)
Definition event_conn (ev : event) : conn :=
  match ev with
  | Connect ws _ | Accepted ws _ | Received ws _ | Sent ws _ => ws
  end.

(** The system after the handler of [ws] has run and stopped in [t]. *)
Definition resume (ws : conn) (t : task) (rooms' : gmap string (gset nat))
    (new : list obs) (s : system) : system :=
  System rooms' (<[ws := t]> (tasks s)) (log s ++ new).

(** The handler, lines 25-54:
<<
    async def ws_endpoint(ws: WebSocket):
        room = ws.query_params.get("room", "default")
        await ws.accept()
        (join, lines 31-33)
        try:
            while True:
                msg = await ws.receive_text()
                for peer in list(rooms.get(room, [])):
                    if peer is not ws:
                        try:
                            await peer.send_text(msg)
                        except Exception:
                            pass
        except WebSocketDisconnect:
            pass
        finally:
            (cleanup, lines 53-54)
>>
    [ws_endpoint ws point ev rooms] resumes the coroutine [ws_endpoint(ws)],
    suspended at [point] ([None]: not called yet), with the event [ev] and the
    registry [rooms], and runs it to its next [await] or to its end.  It
    returns the state the coroutine stops in, the registry it leaves and the
    calls it has made; [None] when [ev] is not what the coroutine is waiting
    for at [point]. *)
Definition ws_endpoint (ws : conn) (point : option task) (ev : event)
    (rooms : gmap string (gset nat))
  : option (task * gmap string (gset nat) * list obs) :=
  match point, ev with
  | None, Connect _ q =>
      Some (Task (resolve_room q) AwaitAccept, rooms, [])
  | Some (Task room AwaitAccept), Accepted _ (Ok _) =>
      match join room ws rooms with
      | Ok rooms' => Some (Task room AwaitReceive, rooms', [ObsJoin ws room])
      | Raise e => Some (Task room (Raised e), rooms, [])
      end
  | Some (Task room AwaitAccept), Accepted _ (Raise e) =>
      (* [await ws.accept()] is outside the [try]: no cleanup *)
      Some (Task room (Raised e), rooms, [])
  | Some (Task room AwaitReceive), Received _ (Ok msg) =>
      Some (Task room (for_peers ws msg (snapshot room rooms)), rooms, [])
  | Some (Task room AwaitReceive), Received _ (Raise e) =>
      let (rooms', k) := unwind room ws e rooms in
      Some (Task room k, rooms', [ObsLeave ws room])
  | Some (Task room (AwaitSend msg peer todo)), Sent _ (Ok _) =>
      Some (Task room (for_peers ws msg todo), rooms,
            [ObsSend ws peer msg true])
  | Some (Task room (AwaitSend msg peer todo)), Sent _ (Raise e) =>
      if is_Exception e
      then
        (* [except Exception: pass] *)
        Some (Task room (for_peers ws msg todo), rooms,
              [ObsSend ws peer msg false])
      else
        let (rooms', k) := unwind room ws e rooms in
        Some (Task room k, rooms',
              [ObsSend ws peer msg false; ObsLeave ws room])
  | _, _ => None
  end.

(** [step ev s] hands [ev] to the handler of its connection.  [None]: the
    event cannot happen in [s] (the handler is not suspended in that call, or
    the connection is not new). *)
Definition step (ev : event) (s : system) : option system :=
  let ws := event_conn ev in
  match ws_endpoint ws (tasks s !! ws) ev (rooms s) with
  | Some (t', rooms', new) => Some (resume ws t' rooms' new s)
  | None => None
  end.

(** A schedule: the events in the order the event loop delivers them. *)
Fixpoint run (evs : list event) (s : system) : option system :=
  match evs with
  | [] => Some s
  | ev :: evs' =>
      match step ev s with
      | Some s' => run evs' s'
      | None => None
      end
  end.

(** The state of a handler, if it was ever started. *)
Definition pc_of (ws : conn) (s : system) : option pc :=
  at_pc <$> tasks s !! ws.

Definition room_of (ws : conn) (s : system) : option string :=
  room <$> tasks s !! ws.

(** A handler that is inside its [while True] loop. *)
Definition relaying (k : pc) : bool :=
  match k with
  | AwaitReceive | AwaitSend _ _ _ => true
  | _ => false
  end.

(** A handler that has ended. *)
Definition finished (k : pc) : bool :=
  match k with
  | Returned | Raised _ => true
  | _ => false
  end.

(** The [send_text] calls of [sender] recorded in a log: peer and payload,
    and whether the transport took it. *)
Definition sends_of (sender : conn) (l : list obs)
  : list (nat * string * bool) :=
  omap (λ o, match o with
             | ObsSend a p m d =>
                 if decide (a = sender) then Some (p, m, d) else None
             | _ => None
             end) l.

(** Among calls, those made on [peer]. *)
Definition on_peer (peer : conn) (calls : list (nat * string * bool))
  : list (string * bool) :=
  omap (λ c, if decide (c.1.1 = peer) then Some (c.1.2, c.2) else None) calls.

(** The [send_text] calls [sender] made on [peer]. *)
Definition calls_to (sender peer : conn) (l : list obs)
  : list (string * bool) :=
  on_peer peer (sends_of sender l).

(** What [peer] was handed by [sender]: the payloads of the calls that
    succeeded. *)
Definition delivered_to (sender peer : conn) (l : list obs) : list string :=
  omap (λ c, if (c.2 : bool) then Some c.1 else None) (calls_to sender peer l).

(** The rooms of the [join]s and of the cleanups of a connection. *)
Definition joins_of (ws : conn) (l : list obs) : list string :=
  omap (λ o, match o with
             | ObsJoin c r => if decide (c = ws) then Some r else None
             | _ => None
             end) l.

Definition leaves_of (ws : conn) (l : list obs) : list string :=
  omap (λ o, match o with
             | ObsLeave c r => if decide (c = ws) then Some r else None
             | _ => None
             end) l.

(** The calls the current broadcast pass of a handler has still to make:
    the one it is suspended in, then the rest of the snapshot without the
    handler's own connection. *)
Definition pending (ws : conn) (k : pc) : list (nat * string) :=
  match k with
  | AwaitSend msg peer todo =>
      (peer, msg) :: ((λ p, (p, msg)) <$> filter (λ p, p ≠ ws) todo)
  | _ => []
  end.

(** The calls a complete pass over a snapshot makes. *)
Definition fan_out (ws : conn) (msg : string) (snap : list conn)
  : list (nat * string) :=
  (λ p, (p, msg)) <$> filter (λ p, p ≠ ws) snap.

(** An outcome of [send_text] that the inner [try] absorbs: the call returns,
    or it raises an [Exception]. *)
Definition absorbed (r : result unit) : bool :=
  match r with
  | Ok _ => true
  | Raise e => is_Exception e
  end.

(** [A] can get a message through to [B]: whatever payload [A]'s handler
    reads next, some schedule runs its pass to the end with [B] handed that
    payload once by the pass and [A] handed nothing by it.  The schedule is
    one in which the transport takes the sends: the outcome of a send is the
    transport's, not the handler's, so this says what the handler does with
    peers whose connection is live, as just-accepted connections are. *)
Definition can_send (A B : conn) (s : system) : Prop :=
  ∀ m, ∃ evs s' new,
    run (Received A (Ok m) :: evs) s = Some s' ∧
    pc_of A s' = Some AwaitReceive ∧
    log s' = log s ++ new ∧
    delivered_to A B new = [m] ∧
    delivered_to A A new = [].

(** The states the process can be in. *)
Definition reachable (s : system) : Prop :=
  ∃ evs, run evs init = Some s.

(** ** Invariants *)

(** The member sets hold exactly the connections whose handler is inside
    its loop, each in the room its handler resolved. *)
Definition membership_exact (s : system) : Prop :=
  ∀ c R, c ∈ members R (rooms s) ↔
         ∃ k, tasks s !! c = Some (Task R k) ∧ relaying k = true.

(** Every peer a handler is sending to, or has still to send to, has a handler
    that resolved the same room. *)
Definition peers_share_room (s : system) : Prop :=
  ∀ A R m p todo,
    tasks s !! A = Some (Task R (AwaitSend m p todo)) →
    ∀ c, c ∈ p :: todo → room_of c s = Some R.

(** Every call made so far was made on a peer of the caller's room. *)
Definition sends_within_room (s : system) : Prop :=
  ∀ A B m d, ObsSend A B m d ∈ log s →
    ∃ R, room_of A s = Some R ∧ room_of B s = Some R.

Definition isolation (s : system) : Prop :=
  membership_exact s ∧ peers_share_room s ∧ sends_within_room s.

(** What the log holds for a connection, by the state of its handler:
    nothing before [accept] returns; its join and no cleanup while it is in
    the loop; once it has ended, either nothing (it never entered the loop)
    or its join and one cleanup. *)
Definition lifecycle_of (t : option task) (js ls : list string) : Prop :=
  match t with
  | None => js = [] ∧ ls = []
  | Some (Task R k) =>
      match k with
      | AwaitAccept => js = [] ∧ ls = []
      | AwaitReceive | AwaitSend _ _ _ => js = [R] ∧ ls = []
      | Returned | Raised _ => (js = [] ∧ ls = []) ∨ (js = [R] ∧ ls = [R])
      end
  end.

Definition lifecycle (s : system) : Prop :=
  ∀ c, lifecycle_of (tasks s !! c) (joins_of c (log s)) (leaves_of c (log s)).

(** Every room a handler has joined is a key of [rooms]. *)
Definition joined_rooms_present (s : system) : Prop :=
  ∀ c R, R ∈ joins_of c (log s) → R ∈ dom (rooms s).

(** ** Scenarios *)

(** The state a schedule leaves the process in, from its start. *)
Definition scenario (evs : list event) : system :=
  default init (run evs init).

(** One connection in the default room. *)
Definition alone : system :=
  scenario [Connect 1 []; Accepted 1 (Ok ())].

(** Two connections in the default room. *)
Definition lobby : system :=
  scenario [Connect 1 []; Accepted 1 (Ok ()); Connect 2 []; Accepted 2 (Ok ())].

(** ... and a third connection whose [accept] has not returned yet. *)
Definition lobby_knock : system :=
  scenario [Connect 1 []; Accepted 1 (Ok ()); Connect 2 []; Accepted 2 (Ok ());
            Connect 3 []].

(** The second one has received a message from the first. *)
Definition lobby_after_offer : system :=
  scenario [Connect 1 []; Accepted 1 (Ok ()); Connect 2 []; Accepted 2 (Ok ());
            Received 1 (Ok "offer"); Sent 1 (Ok ())].

(** Three connections in the default room. *)
Definition trio : system :=
  scenario [Connect 1 []; Accepted 1 (Ok ()); Connect 2 []; Accepted 2 (Ok ());
            Connect 3 []; Accepted 3 (Ok ())].

(** Connection 1 has read a message; connection 2 disconnected while the
    pass was under way, the send to it failed, the send to 3 succeeded. *)
Definition trio_after_offer : system :=
  scenario [Connect 1 []; Accepted 1 (Ok ()); Connect 2 []; Accepted 2 (Ok ());
            Connect 3 []; Accepted 3 (Ok ());
            Received 1 (Ok "offer");
            Received 2 (Raise WebSocketDisconnect);
            Sent 1 (Raise RuntimeError);
            Sent 1 (Ok ())].

(** A connection whose client sent a binary frame: [receive_text] raised
    [KeyError]. *)
Definition hung_up : system :=
  scenario [Connect 1 []; Accepted 1 (Ok ()); Received 1 (Raise KeyError)].

(** Two rooms with one connection each, each having read one message. *)
Definition two_rooms : system :=
  scenario [Connect 1 [("room", "alpha")]; Accepted 1 (Ok ());
            Connect 2 [("room", "beta")]; Accepted 2 (Ok ());
            Received 1 (Ok "hello"); Received 2 (Ok "hi")].

(** A handler in its loop for a room that is not a key of the registry. *)
Definition ghost : system :=
  System ∅ {[1 := Task "nowhere" AwaitReceive]} [].

(** ** Further observations and invariants *)

(** The payloads a connection's handler has read, in the order it read them,
    along a schedule. *)
Definition received_by (A : conn) (evs : list event) : list string :=
  omap (λ ev, match ev with
              | Received c (Ok m) => if decide (c = A) then Some m else None
              | _ => None
              end) evs.

(** The rooms the log has a join for. *)
Definition rooms_joined (l : list obs) : gset string :=
  list_to_set (omap (λ o, match o with
                          | ObsJoin _ r => Some r
                          | _ => None
                          end) l).

(** A handler that is sending never has itself as its peer, and every peer it
    is sending to or has still to send to has joined; every call made so far
    was made by a handler that had joined, on another connection that had
    joined. *)
Definition callees_have_joined (s : system) : Prop :=
  (∀ A R m p todo,
     tasks s !! A = Some (Task R (AwaitSend m p todo)) →
     p ≠ A ∧ ∀ c, c ∈ p :: todo → joins_of c (log s) ≠ []) ∧
  (∀ A B m d, ObsSend A B m d ∈ log s →
     A ≠ B ∧ joins_of A (log s) ≠ [] ∧ joins_of B (log s) ≠ []).

(** What relaying in order means in a state reached by the schedule [evs]:
    the payloads [A] has called [send_text] on [B] with are, in order, among
    the payloads [A] has read; and while [A] is in a pass that has still to
    call [B], they are among those read before the message of this pass. *)
Definition in_order (A B : conn) (evs : list event) (s : system) : Prop :=
  match pc_of A s with
  | Some (AwaitSend m p todo) =>
      ∃ before, received_by A evs = before ++ [m] ∧ NoDup (p :: todo) ∧
        (calls_to A B (log s)).*1
          `sublist_of` (if decide (B ∈ p :: todo) then before
                        else received_by A evs)
  | _ => (calls_to A B (log s)).*1 `sublist_of` received_by A evs
  end.

(** ** Further scenarios *)

(** In [lobby], connection 1 has read a message; while its send to 2 was
    under way connection 3 joined the room; then the send returned. *)
Definition lobby_late_join : system :=
  scenario [Connect 1 []; Accepted 1 (Ok ()); Connect 2 []; Accepted 2 (Ok ());
            Received 1 (Ok "offer");
            Connect 3 []; Accepted 3 (Ok ());
            Sent 1 (Ok ())].

(** In [trio], connection 1 has read a message and is in its first send. *)
Definition trio_offering : system :=
  scenario [Connect 1 []; Accepted 1 (Ok ()); Connect 2 []; Accepted 2 (Ok ());
            Connect 3 []; Accepted 3 (Ok ());
            Received 1 (Ok "offer")].

(** ... and that send was cancelled. *)
Definition trio_cancelled : system :=
  scenario [Connect 1 []; Accepted 1 (Ok ()); Connect 2 []; Accepted 2 (Ok ());
            Connect 3 []; Accepted 3 (Ok ());
            Received 1 (Ok "offer");
            Sent 1 (Raise CancelledError);
            Received 2 (Ok "hi"); Sent 2 (Ok ())].

(** In [lobby], connection 1 has relayed two messages. *)
Definition lobby_two_offers : system :=
  scenario [Connect 1 []; Accepted 1 (Ok ()); Connect 2 []; Accepted 2 (Ok ());
            Received 1 (Ok "offer"); Sent 1 (Ok ());
            Received 1 (Ok "candidate"); Sent 1 (Ok ())].

(** A connection whose [accept] has not returned yet. *)
Definition knocking : system :=
  scenario [Connect 1 []].

(** Its [accept] raised; another connection came, joined and sent. *)
Definition turned_away : system :=
  scenario [Connect 1 []; Accepted 1 (Raise RuntimeError);
            Connect 2 []; Accepted 2 (Ok ()); Received 2 (Ok "hi")].


(** ** The transitions of one handler, case by case *)

(** [handler_step ws ev t rooms t' rooms' new]: event [ev] resumes the handler
    of [ws], found in state [t] ([None]: not started) with the registry
    [rooms]; the handler stops in [t'], leaves the registry [rooms'] and has
    made the calls [new].  The relation is [step] read branch by branch, with
    the two registry operations known not to raise. *)
Inductive handler_step (ws : nat) :
  event → option task → gmap string (gset nat) →
  task → gmap string (gset nat) → list obs → Prop :=
| hs_connect q rooms :
    handler_step ws (Connect ws q) None rooms
      (Task (resolve_room q) AwaitAccept) rooms []
| hs_accepted room u rooms rooms' :
    join room ws rooms = Ok rooms' →
    handler_step ws (Accepted ws (Ok u)) (Some (Task room AwaitAccept)) rooms
      (Task room AwaitReceive) rooms' [ObsJoin ws room]
| hs_accept_raised room e rooms :
    handler_step ws (Accepted ws (Raise e)) (Some (Task room AwaitAccept)) rooms
      (Task room (Raised e)) rooms []
| hs_received room msg rooms :
    handler_step ws (Received ws (Ok msg)) (Some (Task room AwaitReceive)) rooms
      (Task room (for_peers ws msg (snapshot room rooms))) rooms []
| hs_receive_raised room e rooms rooms' :
    leave room ws rooms = Ok rooms' →
    handler_step ws (Received ws (Raise e)) (Some (Task room AwaitReceive)) rooms
      (Task room (if is_WebSocketDisconnect e then Returned else Raised e))
      rooms' [ObsLeave ws room]
| hs_sent room msg peer todo u rooms :
    handler_step ws (Sent ws (Ok u))
      (Some (Task room (AwaitSend msg peer todo))) rooms
      (Task room (for_peers ws msg todo)) rooms [ObsSend ws peer msg true]
| hs_send_failed room msg peer todo e rooms :
    is_Exception e = true →
    handler_step ws (Sent ws (Raise e))
      (Some (Task room (AwaitSend msg peer todo))) rooms
      (Task room (for_peers ws msg todo)) rooms [ObsSend ws peer msg false]
| hs_send_uncaught room msg peer todo e rooms rooms' :
    is_Exception e = false →
    leave room ws rooms = Ok rooms' →
    handler_step ws (Sent ws (Raise e))
      (Some (Task room (AwaitSend msg peer todo))) rooms
      (Task room (Raised e)) rooms'
      [ObsSend ws peer msg false; ObsLeave ws room].

(** * Properties *)

(** [WebSocketDisconnect] is a subclass of [Exception]. *)
Lemma uncaught_not_disconnect e :
  is_Exception e = false → is_WebSocketDisconnect e = false.
Proof. by destruct e. Qed.

(** ** The registry operations never raise *)

Section registry_facts.
Implicit Types (room : string) (ws : nat) (rooms : gmap string (gset nat)).

Lemma members_insert room s rooms : members room (<[room := s]> rooms) = s.
Proof. unfold members. by rewrite lookup_insert_eq. Qed.

Lemma members_insert_ne room r s rooms :
  r ≠ room → members r (<[room := s]> rooms) = members r rooms.
Proof. intros Hne. unfold members. by rewrite lookup_insert_ne. Qed.

Lemma members_None room rooms : rooms !! room = None → members room rooms = ∅.
Proof. unfold members. by intros ->. Qed.

Lemma elem_of_snapshot room rooms c :
  c ∈ snapshot room rooms ↔ c ∈ members room rooms.
Proof.
  unfold snapshot, members. destruct (rooms !! room) as [s|]; simpl.
  - apply elem_of_elements.
  - set_solver.
Qed.

Lemma NoDup_snapshot room rooms : NoDup (snapshot room rooms).
Proof.
  unfold snapshot. destruct (rooms !! room); [apply NoDup_elements | constructor].
Qed.

Lemma contains_Some room s rooms :
  rooms !! room = Some s → Py.contains room rooms = true.
Proof. intros H. apply bool_decide_eq_true_2. by exists s. Qed.

Lemma contains_None room rooms :
  rooms !! room = None → Py.contains room rooms = false.
Proof.
  intros H. apply bool_decide_eq_false_2. intros [s Hs]. congruence.
Qed.

(** The guarded subscript of [join] always finds its key: the operation is
    the insertion of [ws] into the member set. *)
Lemma join_Ok room ws rooms :
  join room ws rooms = Ok (<[room := members room rooms ∪ {[ws]}]> rooms).
Proof.
  unfold join, members.
  destruct (rooms !! room) as [s|] eqn:Hr.
  - rewrite (contains_Some _ _ _ Hr). unfold Py.getitem. simpl. by rewrite Hr.
  - rewrite (contains_None _ _ Hr). unfold Py.getitem, Py.setitem, Py.set_add.
    simpl. rewrite lookup_insert_eq. simpl. by rewrite insert_insert_eq.
Qed.

(** The guard of the cleanup makes both the subscript and [remove] safe. *)
Lemma leave_Ok room ws rooms :
  leave room ws rooms =
  Ok (if decide (ws ∈ members room rooms)
      then <[room := members room rooms ∖ {[ws]}]> rooms
      else rooms).
Proof.
  unfold leave, members.
  destruct (rooms !! room) as [s|] eqn:Hr.
  - rewrite (contains_Some _ _ _ Hr).
    unfold Py.getitem, Py.set_contains, Py.set_remove, Py.setitem.
    rewrite Hr. simpl.
    destruct (decide (ws ∈ s)) as [Hin|Hin].
    + rewrite !bool_decide_eq_true_2 by done. done.
    + rewrite bool_decide_eq_false_2 by done. done.
  - rewrite (contains_None _ _ Hr). simpl.
    rewrite decide_False by set_solver. done.
Qed.

Lemma leave_members room ws rooms rooms' :
  leave room ws rooms = Ok rooms' →
  members room rooms' = members room rooms ∖ {[ws]}.
Proof.
  rewrite leave_Ok. intros [= <-]. case_decide.
  - by rewrite members_insert.
  - set_solver.
Qed.

Lemma leave_lookup_ne room r ws rooms rooms' :
  leave room ws rooms = Ok rooms' → r ≠ room → rooms' !! r = rooms !! r.
Proof.
  rewrite leave_Ok. intros [= <-] Hne. case_decide; [|done].
  by rewrite lookup_insert_ne.
Qed.

Lemma leave_dom room ws rooms rooms' :
  leave room ws rooms = Ok rooms' → dom rooms' = dom rooms.
Proof.
  rewrite leave_Ok. intros [= <-]. case_decide as Hin; [|done].
  rewrite dom_insert_L. unfold members in Hin.
  destruct (rooms !! room) as [s|] eqn:Hr; simpl in Hin; [|set_solver].
  apply elem_of_dom_2 in Hr. set_solver.
Qed.

Lemma join_dom room ws rooms rooms' :
  join room ws rooms = Ok rooms' → dom rooms' = {[room]} ∪ dom rooms.
Proof. rewrite join_Ok. intros [= <-]. by rewrite dom_insert_L. Qed.

Lemma unwind_leave room ws e rooms :
  ∃ rooms', leave room ws rooms = Ok rooms' ∧
    unwind room ws e rooms =
      (rooms', if is_WebSocketDisconnect e then Returned else Raised e).
Proof. unfold unwind. rewrite leave_Ok. eauto. Qed.

End registry_facts.

(** ** The relation is the function *)

Lemma ws_endpoint_handler_step ev point rooms t' rooms' new :
  ws_endpoint (event_conn ev) point ev rooms = Some (t', rooms', new) →
  handler_step (event_conn ev) ev point rooms t' rooms' new.
Proof.
  destruct ev as [ws q|ws [u|e]|ws [msg|e]|ws [u|e]],
    point as [[room []]|]; simpl; intros H; simplify_eq.
  - constructor.
  - rewrite join_Ok in H. simplify_eq. constructor. apply join_Ok.
  - constructor.
  - constructor.
  - destruct (unwind_leave room ws e rooms) as (r' & Hl & Hu).
    rewrite Hu in H. simplify_eq. by constructor.
  - constructor.
  - destruct (is_Exception e) eqn:He; simplify_eq; [by constructor|].
    destruct (unwind_leave room ws e rooms) as (r' & Hl & Hu).
    rewrite Hu, (uncaught_not_disconnect _ He) in H. simplify_eq.
    by constructor.
Qed.

(** Conversely every case of the relation is a run of [ws_endpoint]. *)
Lemma handler_step_ws_endpoint ws ev point rooms t' rooms' new :
  handler_step ws ev point rooms t' rooms' new →
  ws_endpoint ws point ev rooms = Some (t', rooms', new).
Proof.
  destruct 1; simpl; unfold unwind;
    repeat match goal with
      | Hj : join _ _ _ = _ |- _ => rewrite Hj; clear Hj
      | He : is_Exception _ = false |- _ =>
          rewrite He; apply uncaught_not_disconnect in He
      | He : is_Exception _ = true |- _ => rewrite He; clear He
      | Hd : is_WebSocketDisconnect _ = false |- _ => rewrite Hd; clear Hd
      | Hl : leave _ _ _ = _ |- _ => rewrite Hl; clear Hl
      end;
    done.
Qed.

Lemma handler_step_event ws ev t rooms t' rooms' new :
  handler_step ws ev t rooms t' rooms' new → event_conn ev = ws.
Proof. by destruct 1. Qed.

Lemma step_handler_step ev s s' :
  step ev s = Some s' →
  ∃ t' rooms' new,
    handler_step (event_conn ev) ev (tasks s !! event_conn ev) (rooms s)
      t' rooms' new ∧
    s' = resume (event_conn ev) t' rooms' new s.
Proof.
  unfold step.
  destruct (ws_endpoint _ _ _ _) as [[[t' rooms'] new]|] eqn:Hw; [|done].
  intros [= <-]. eexists _, _, _. split; [|done].
  by apply ws_endpoint_handler_step.
Qed.

Lemma handler_step_step ws ev s t' rooms' new :
  handler_step ws ev (tasks s !! ws) (rooms s) t' rooms' new →
  step ev s = Some (resume ws t' rooms' new s).
Proof.
  intros H. unfold step. rewrite (handler_step_event _ _ _ _ _ _ _ H).
  by rewrite (handler_step_ws_endpoint _ _ _ _ _ _ _ H).
Qed.

(** The transitions the proofs below run. *)
Lemma step_connect ws q s :
  tasks s !! ws = None →
  step (Connect ws q) s =
  Some (resume ws (Task (resolve_room q) AwaitAccept) (rooms s) [] s).
Proof. intros Ht. apply handler_step_step. rewrite Ht. constructor. Qed.

Lemma step_accepted ws room u s :
  tasks s !! ws = Some (Task room AwaitAccept) →
  step (Accepted ws (Ok u)) s =
  Some (resume ws (Task room AwaitReceive)
          (<[room := members room (rooms s) ∪ {[ws]}]> (rooms s))
          [ObsJoin ws room] s).
Proof.
  intros Ht. apply handler_step_step. rewrite Ht. constructor. apply join_Ok.
Qed.

Lemma step_received ws room msg s :
  tasks s !! ws = Some (Task room AwaitReceive) →
  step (Received ws (Ok msg)) s =
  Some (resume ws (Task room (for_peers ws msg (snapshot room (rooms s))))
          (rooms s) [] s).
Proof. intros Ht. apply handler_step_step. rewrite Ht. constructor. Qed.

Lemma step_receive_raised ws room e s rooms' :
  tasks s !! ws = Some (Task room AwaitReceive) →
  leave room ws (rooms s) = Ok rooms' →
  step (Received ws (Raise e)) s =
  Some (resume ws
          (Task room (if is_WebSocketDisconnect e then Returned else Raised e))
          rooms' [ObsLeave ws room] s).
Proof. intros Ht Hl. apply handler_step_step. rewrite Ht. by constructor. Qed.

Lemma step_sent ws room msg peer todo r s :
  tasks s !! ws = Some (Task room (AwaitSend msg peer todo)) →
  absorbed r = true →
  step (Sent ws r) s =
  Some (resume ws (Task room (for_peers ws msg todo)) (rooms s)
          [ObsSend ws peer msg (if r is Ok _ then true else false)] s).
Proof.
  intros Ht Hr. apply handler_step_step. rewrite Ht.
  destruct r; by constructor.
Qed.

(** ** Schedules *)

Lemma run_app evs1 evs2 s :
  run (evs1 ++ evs2) s = run evs1 s ≫= run evs2.
Proof.
  revert s. induction evs1 as [|ev evs1 IH]; intros s; simpl; [done|].
  destruct (step ev s); simpl; [apply IH | done].
Qed.

(** A property that holds at start and that every transition keeps holds
    in every state of every schedule. *)
Lemma run_invariant (P : system → Prop) :
  (∀ ev s s', P s → step ev s = Some s' → P s') →
  ∀ evs s s', P s → run evs s = Some s' → P s'.
Proof.
  intros Hstep evs. induction evs as [|ev evs IH]; intros s s' HP Hrun;
    simpl in Hrun.
  - by simplify_eq.
  - destruct (step ev s) as [s1|] eqn:Hs; [|done]. eauto.
Qed.

Lemma reachable_invariant (P : system → Prop) :
  P init →
  (∀ ev s s', P s → step ev s = Some s' → P s') →
  ∀ s, reachable s → P s.
Proof. intros H0 Hstep s [evs Hrun]. by eapply run_invariant. Qed.

Lemma reachable_run evs s s' :
  reachable s → run evs s = Some s' → reachable s'.
Proof.
  intros [evs0 H0] Hrun. exists (evs0 ++ evs). rewrite run_app, H0. done.
Qed.

(** ** What a transition leaves alone *)

Lemma step_tasks_ne ev s s' c :
  step ev s = Some s' → c ≠ event_conn ev → tasks s' !! c = tasks s !! c.
Proof.
  intros (t' & rooms' & new & _ & ->)%step_handler_step Hne. simpl.
  by rewrite lookup_insert_ne.
Qed.

(** A handler only logs its own calls. *)
Lemma handler_step_sends_ne ws ev t rooms t' rooms' new c :
  handler_step ws ev t rooms t' rooms' new → c ≠ ws → sends_of c new = [].
Proof.
  destruct 1; intros Hne; simpl; try done;
    by rewrite ?decide_False by done.
Qed.

(** A logged call was made by the handler that was suspended in it. *)
Lemma handler_step_new_send ws ev t rooms t' rooms' new A B m d :
  handler_step ws ev t rooms t' rooms' new →
  ObsSend A B m d ∈ new →
  A = ws ∧ ∃ R todo, t = Some (Task R (AwaitSend m B todo)).
Proof.
  destruct 1; intros Hin;
    repeat (apply elem_of_cons in Hin as [Hin|Hin]; simplify_eq);
    try (by apply elem_of_nil in Hin); eauto.
Qed.

(** The local variable [room] is assigned once. *)
Lemma handler_step_room ws ev r k rooms t' rooms' new :
  handler_step ws ev (Some (Task r k)) rooms t' rooms' new → room t' = r.
Proof. inversion 1; by subst. Qed.

Lemma step_room_of ev s s' c r :
  step ev s = Some s' → room_of c s = Some r → room_of c s' = Some r.
Proof.
  intros (t' & rooms' & new & Hh & ->)%step_handler_step Hr.
  unfold room_of in *. simpl.
  destruct (decide (c = event_conn ev)) as [->|Hne].
  - rewrite lookup_insert_eq. simpl.
    destruct (tasks s !! event_conn ev) as [[r0 k]|] eqn:Ht; [|done].
    simpl in Hr. simplify_eq. f_equal. by eapply handler_step_room.
  - by rewrite lookup_insert_ne.
Qed.

(** A handler that has ended is never resumed. *)
Lemma handler_step_finished ws ev r k rooms t' rooms' new :
  handler_step ws ev (Some (Task r k)) rooms t' rooms' new →
  finished k = false.
Proof. inversion 1; by subst. Qed.

Lemma step_finished ev s s' c r k :
  step ev s = Some s' → tasks s !! c = Some (Task r k) → finished k = true →
  tasks s' !! c = Some (Task r k).
Proof.
  intros Hstep Ht Hf. destruct (decide (c = event_conn ev)) as [->|Hne].
  - apply step_handler_step in Hstep as (t' & rooms' & new & Hh & ->).
    rewrite Ht in Hh. apply handler_step_finished in Hh. congruence.
  - by rewrite (step_tasks_ne _ _ _ _ Hstep Hne).
Qed.

Lemma run_finished evs s s' c r k :
  run evs s = Some s' → tasks s !! c = Some (Task r k) → finished k = true →
  tasks s' !! c = Some (Task r k).
Proof.
  intros Hrun Ht Hf.
  apply (run_invariant (λ s, tasks s !! c = Some (Task r k))) with evs s;
    [|done..].
  intros ev s1 s2 H1 Hstep. by eapply step_finished.
Qed.

Lemma run_log evs s s' :
  run evs s = Some s' → ∃ new, log s' = log s ++ new.
Proof.
  revert s. induction evs as [|ev evs IH]; intros s Hrun; simpl in Hrun.
  - simplify_eq. exists []. by rewrite app_nil_r.
  - destruct (step ev s) as [s1|] eqn:Hs; [|done].
    apply step_handler_step in Hs as (t' & rooms' & new & _ & ->).
    destruct (IH _ Hrun) as [new' ->]. simpl.
    exists (new ++ new'). by rewrite app_assoc.
Qed.

(** ** One broadcast pass *)

Lemma relaying_for_peers ws msg todo : relaying (for_peers ws msg todo) = true.
Proof. induction todo as [|p todo IH]; simpl; [done|]. by case_decide. Qed.

(** Resuming the [for] loop on [todo] leaves exactly the calls of a pass
    over [todo] to make. *)
Lemma pending_for_peers ws msg todo :
  pending ws (for_peers ws msg todo) = fan_out ws msg todo.
Proof.
  unfold fan_out. induction todo as [|p todo IH]; simpl; [done|].
  case_decide as Hp.
  - rewrite IH. by rewrite filter_cons_False by (intros ?; done).
  - simpl. by rewrite filter_cons_True by done.
Qed.

Lemma sends_of_app c l1 l2 : sends_of c (l1 ++ l2) = sends_of c l1 ++ sends_of c l2.
Proof. apply omap_app. Qed.

(** One transition of the system, seen from a handler [A] that is inside its
    loop and is not handed a new message: either [A] stays in the loop, and
    the calls it has just made are taken from the front of what it had to
    make; or [A] was in a [send_text] that raised an exception
    [except Exception] does not catch. *)
Lemma pass_step A ev s s' R k :
  step ev s = Some s' →
  tasks s !! A = Some (Task R k) → relaying k = true →
  (∀ r, ev ≠ Received A r) →
  ∃ k' new, tasks s' !! A = Some (Task R k') ∧ log s' = log s ++ new ∧
    ((relaying k' = true ∧
      (sends_of A new).*1 ++ pending A k' = pending A k ∧
      (∀ c, c ∈ sends_of A new → c.2 = false → ∃ e, ev = Sent A (Raise e)))
     ∨ (∃ e, ev = Sent A (Raise e) ∧ is_Exception e = false ∧ k' = Raised e)).
Proof.
  intros Hstep Ht Hk Hev.
  pose proof Hstep as (t' & rooms' & new & Hh & ->)%step_handler_step.
  destruct (decide (event_conn ev = A)) as [HA|Hne].
  - rewrite HA, Ht in Hh.
    inversion Hh; subst; simpl in *; try done.
    + by edestruct Hev.
    + by edestruct Hev.
    + eexists _, _. rewrite lookup_insert_eq. split_and!; [done..|]. left.
      unfold sends_of. simpl. rewrite decide_True by done. simpl.
      split_and!; [apply relaying_for_peers | by rewrite pending_for_peers |].
      intros c ->%list_elem_of_singleton. done.
    + eexists _, _. rewrite lookup_insert_eq. split_and!; [done..|]. left.
      unfold sends_of. simpl. rewrite decide_True by done. simpl.
      split_and!; [apply relaying_for_peers | by rewrite pending_for_peers |].
      intros c ->%list_elem_of_singleton _. eauto.
    + eexists _, _. rewrite lookup_insert_eq. split_and!; [done..|]. right.
      eauto.
  - exists k, new. simpl. rewrite lookup_insert_ne by done.
    split_and!; [done..|]. left.
    rewrite (handler_step_sends_ne _ _ _ _ _ _ _ A Hh) by done.
    split_and!; [done..|]. by intros c ?%elem_of_nil.
Qed.

(** The same along a schedule. *)
Lemma pass_run A evs : ∀ s s' R k,
  run evs s = Some s' →
  tasks s !! A = Some (Task R k) → relaying k = true →
  (∀ r, Received A r ∉ evs) →
  ∃ k' new, tasks s' !! A = Some (Task R k') ∧ log s' = log s ++ new ∧
    ((relaying k' = true ∧
      (sends_of A new).*1 ++ pending A k' = pending A k ∧
      (∀ c, c ∈ sends_of A new → c.2 = false → ∃ e, Sent A (Raise e) ∈ evs))
     ∨ (∃ e, Sent A (Raise e) ∈ evs ∧ is_Exception e = false ∧ k' = Raised e)).
Proof.
  induction evs as [|ev evs IH]; intros s s' R k Hrun Ht Hk Hrecv;
    simpl in Hrun.
  - simplify_eq. exists k, []. rewrite app_nil_r. split_and!; [done..|].
    left. split_and!; [done..|]. by intros c ?%elem_of_nil.
  - destruct (step ev s) as [s1|] eqn:Hs; [|done].
    destruct (pass_step A ev s s1 R k) as (k1 & new1 & Ht1 & Hl1 & Hcase);
      [done..| |].
    { intros r ->. apply (Hrecv r). left. }
    destruct Hcase as [(Hk1 & Hp1 & Hf1)|(e & -> & He & ->)].
    + destruct (IH s1 s' R k1) as (k' & new2 & Ht' & Hl' & Hcase');
        [done..| |].
      { intros r Hin. apply (Hrecv r). by right. }
      exists k', (new1 ++ new2). rewrite Hl', Hl1, app_assoc.
      split_and!; [done..|].
      destruct Hcase' as [(Hk' & Hp' & Hf')|(e & Hin & He & ->)].
      * left. rewrite sends_of_app, fmap_app, <- app_assoc, Hp', Hp1.
        split_and!; [done..|].
        intros c [Hc|Hc]%elem_of_app Hd.
        -- destruct (Hf1 c Hc Hd) as [e ->]. exists e. left.
        -- destruct (Hf' c Hc Hd) as [e He]. exists e. by right.
      * right. exists e. split_and!; [by right | done..].
    + destruct (run_log _ _ _ Hrun) as [new2 Hl'].
      exists (Raised e), (new1 ++ new2). rewrite Hl', Hl1, app_assoc.
      split_and!; [|done|].
      * by eapply run_finished.
      * right. exists e. split_and!; [left | done..].
Qed.

Lemma on_peer_cons B c calls :
  on_peer B (c :: calls) =
  if decide (c.1.1 = B) then (c.1.2, c.2) :: on_peer B calls
  else on_peer B calls.
Proof. unfold on_peer. simpl. by case_decide. Qed.

(** If the calls made are, in order, one call with payload [msg] per element
    of a duplicate-free list, then a peer that is not in the list was not
    called, and a peer that is in it was called once, with [msg]. *)
Lemma on_peer_fan_out (L : list nat) : ∀ (calls : list (nat * string * bool)) msg B,
  calls.*1 = (λ p, (p, msg)) <$> L → NoDup L →
  (B ∉ L → on_peer B calls = []) ∧
  (B ∈ L → ∃ d, on_peer B calls = [(msg, d)] ∧ (B, msg, d) ∈ calls).
Proof.
  induction L as [|p L IH]; intros calls msg B Hc Hnd.
  - apply fmap_nil_inv in Hc as ->. split; [done|]. by intros ?%elem_of_nil.
  - destruct calls as [|[[p' m'] d] calls]; [done|].
    simpl in Hc. injection Hc as -> -> Hc.
    apply NoDup_cons in Hnd as [Hp Hnd].
    destruct (IH calls msg B Hc Hnd) as [IHout IHin].
    rewrite on_peer_cons. simpl. case_decide as HpB.
    + subst p. split; [intros []; left|]. intros _.
      exists d. rewrite (IHout Hp). split; [done | left].
    + split.
      * intros Hout. apply IHout. intros ?. apply Hout. by right.
      * intros [->|Hin]%elem_of_cons; [done|].
        destruct (IHin Hin) as (d' & -> & Hd'). exists d'. split; [done|].
        by right.
Qed.

(** The first transition of a pass. *)
Lemma run_received A m evs s s' R :
  tasks s !! A = Some (Task R AwaitReceive) →
  run (Received A (Ok m) :: evs) s = Some s' →
  let s1 := resume A (Task R (for_peers A m (snapshot R (rooms s))))
              (rooms s) [] s in
  step (Received A (Ok m)) s = Some s1 ∧ run evs s1 = Some s'.
Proof.
  intros Ht Hrun. cbn [run] in Hrun. by rewrite (step_received _ _ _ _ Ht) in *.
Qed.

(** A pass that has come to its end made one call per member of the
    snapshot other than the sender, in the order of the snapshot; and a call
    the transport refused is a [send_text] of the sender that raised. *)
Lemma pass_complete s A R m evs s' :
  tasks s !! A = Some (Task R AwaitReceive) →
  (∀ r, Received A r ∉ evs) →
  run (Received A (Ok m) :: evs) s = Some s' →
  pc_of A s' = Some AwaitReceive →
  ∃ new, log s' = log s ++ new ∧
    (sends_of A new).*1 = fan_out A m (snapshot R (rooms s)) ∧
    (∀ c, c ∈ sends_of A new → c.2 = false → ∃ e, Sent A (Raise e) ∈ evs).
Proof.
  intros Ht Hrecv Hrun Hend.
  destruct (run_received _ _ _ _ _ _ Ht Hrun) as [_ Hrun1].
  destruct (pass_run A evs _ s' R (for_peers A m (snapshot R (rooms s))) Hrun1)
    as (k' & new & Ht' & Hl & Hcase).
  { simpl. by rewrite lookup_insert_eq. }
  { apply relaying_for_peers. }
  { done. }
  unfold pc_of in Hend. rewrite Ht' in Hend. simpl in Hend. simplify_eq.
  destruct Hcase as [(_ & Hp & Hf)|(e & _ & _ & ?)]; [|done].
  simpl in Hp. rewrite app_nil_r, pending_for_peers in Hp.
  simpl in Hl. rewrite app_nil_r in Hl. by exists new.
Qed.

(** What one peer sees of such a pass. *)
Lemma fan_out_calls A B m snap new :
  (sends_of A new).*1 = fan_out A m snap → NoDup snap →
  A ≠ B → B ∈ snap →
  ∃ d, (B, m, d) ∈ sends_of A new ∧
    calls_to A B new = [(m, d)] ∧
    delivered_to A B new = (if d then [m] else []) ∧
    calls_to A A new = [] ∧
    delivered_to A A new = [].
Proof.
  intros Hp Hsnap HAB HB. unfold fan_out in Hp.
  assert (NoDup (filter (λ p, p ≠ A) snap)) as Hnd by by apply NoDup_filter.
  destruct (on_peer_fan_out _ _ _ B Hp Hnd) as [_ HinB].
  destruct (on_peer_fan_out _ _ _ A Hp Hnd) as [HoutA _].
  destruct HinB as (d & HcB & Hd).
  { apply list_elem_of_filter. by split. }
  assert (on_peer A (sends_of A new) = []) as HcA.
  { apply HoutA. intros [HA _]%list_elem_of_filter. done. }
  exists d. unfold delivered_to, calls_to. rewrite HcB, HcA.
  split_and!; try done. by destruct d.
Qed.

(** Progress: once the handler is in its [for] loop, answering each of its
    sends, with a success or with a failure, brings it to the end of the pass;
    the registry is not touched. *)
Lemma for_peers_run A R m : ∀ todo s (rs : list (result unit)),
  tasks s !! A = Some (Task R (for_peers A m todo)) →
  length rs = length (fan_out A m todo) →
  Forall (λ r, absorbed r = true) rs →
  ∃ s', run (Sent A <$> rs) s = Some s' ∧
    tasks s' !! A = Some (Task R AwaitReceive) ∧ rooms s' = rooms s.
Proof.
  unfold fan_out.
  induction todo as [|p todo IH]; intros s rs Ht Hlen Hrs;
    cbn [for_peers] in Ht.
  - destruct rs; [|done]. by exists s.
  - case_decide as Hp.
    + rewrite filter_cons_False in Hlen by (intros ?; done). by apply IH.
    + rewrite filter_cons_True, fmap_cons in Hlen by done.
      destruct rs as [|r rs]; [done|]. cbn [length] in Hlen.
      apply Forall_cons in Hrs as [Hr Hrs].
      pose proof (step_sent _ _ _ _ _ _ _ Ht Hr) as Hstep.
      destruct (IH (resume A (Task R (for_peers A m todo)) (rooms s)
                      [ObsSend A p m (if r is Ok _ then true else false)] s) rs)
        as (s' & Hrun & Ht' & Hr'); [|by injection Hlen|done|].
      { simpl. by rewrite lookup_insert_eq. }
      exists s'. cbn [fmap list_fmap run]. rewrite Hstep. done.
Qed.

Lemma pass_terminates s A R m (rs : list (result unit)) :
  tasks s !! A = Some (Task R AwaitReceive) →
  length rs = length (fan_out A m (snapshot R (rooms s))) →
  Forall (λ r, absorbed r = true) rs →
  ∃ s', run (Received A (Ok m) :: (Sent A <$> rs)) s = Some s' ∧
    tasks s' !! A = Some (Task R AwaitReceive) ∧ rooms s' = rooms s.
Proof.
  intros Ht Hlen Hrs. cbn [run]. rewrite (step_received _ _ _ _ Ht).
  destruct (for_peers_run A R m (snapshot R (rooms s))
              (resume A (Task R (for_peers A m (snapshot R (rooms s))))
                 (rooms s) [] s) rs) as (s' & Hrun & Ht' & Hr'); [|done..|].
  { simpl. by rewrite lookup_insert_eq. }
  by exists s'.
Qed.

Lemma not_elem_of_fmap_Sent A (rs : list (result unit)) r :
  Received A r ∉ Sent A <$> rs.
Proof. by intros (x & ? & _)%list_elem_of_fmap. Qed.

(** When the transport takes every send, the pass hands the payload to each
    other member of the room. *)
Lemma pass_delivers s A B R :
  tasks s !! A = Some (Task R AwaitReceive) →
  A ≠ B →
  B ∈ members R (rooms s) →
  can_send A B s.
Proof.
  intros Ht HAB HB m.
  set (n := length (fan_out A m (snapshot R (rooms s)))).
  destruct (pass_terminates s A R m (replicate n (Ok ())) Ht)
    as (s' & Hrun & Ht' & _).
  { by rewrite length_replicate. }
  { by apply Forall_replicate. }
  assert (pc_of A s' = Some AwaitReceive) as Hend
    by (unfold pc_of; by rewrite Ht').
  destruct (pass_complete s A R m _ s' Ht (not_elem_of_fmap_Sent A _) Hrun Hend)
    as (new & Hl & Hp & Hf).
  destruct (fan_out_calls A B m _ new Hp (NoDup_snapshot _ _) HAB)
    as (d & Hd & _ & HdB & _ & HdA).
  { by apply elem_of_snapshot. }
  exists (Sent A <$> replicate n (Ok ())), s', new.
  split_and!; [done..| |done].
  rewrite HdB. destruct d; [done|].
  destruct (Hf _ Hd eq_refl)
    as (e & (x & [= <-] & Hx%elem_of_replicate)%list_elem_of_fmap).
  by destruct Hx.
Qed.


(** C2.  Let A's handler be waiting for a message in room R, and let A
    receive [m].  Whatever the outcome of each of A's sends, success or an
    [Exception] (a transport error), the pass runs to its end: A's handler
    waits for its next message, the registry is as it was, and A has made
    one call per member of the snapshot other than itself.  And along every
    schedule in which A is handed no further message and every [send_text]
    of A that fails raises an [Exception], A's handler is still inside its
    loop, suspended in a send or waiting for its next message: it has neither
    ended nor raised; and the calls it has made so far, followed by those it
    has still to make, are one call per member of the snapshot other than A:
    no peer was skipped because another one failed. *)
Theorem send_failure_is_swallowed s A R m :
  tasks s !! A = Some (Task R AwaitReceive) →
  (∀ rs : list (result unit),
     length rs = length (fan_out A m (snapshot R (rooms s))) →
     Forall (λ r, absorbed r = true) rs →
     ∃ s' new,
       run (Received A (Ok m) :: (Sent A <$> rs)) s = Some s' ∧
       tasks s' !! A = Some (Task R AwaitReceive) ∧
       rooms s' = rooms s ∧
       log s' = log s ++ new ∧
       (sends_of A new).*1 = fan_out A m (snapshot R (rooms s))) ∧
  (∀ evs s',
     (∀ r, Received A r ∉ evs) →
     (∀ e, Sent A (Raise e) ∈ evs → is_Exception e = true) →
     run (Received A (Ok m) :: evs) s = Some s' →
     ∃ k' new,
       tasks s' !! A = Some (Task R k') ∧ relaying k' = true ∧
       log s' = log s ++ new ∧
       (sends_of A new).*1 ++ pending A k'
         = fan_out A m (snapshot R (rooms s))).
Proof.
  intros Ht. split.
  - intros rs Hlen Hrs.
    destruct (pass_terminates s A R m rs Ht Hlen Hrs) as (s' & Hrun & Ht' & Hr').
    destruct (pass_complete s A R m (Sent A <$> rs) s' Ht) as (new & Hl & Hp & _);
      [apply not_elem_of_fmap_Sent | done | by unfold pc_of; rewrite Ht' |].
    by exists s', new.
  - intros evs s' Hrecv Hexc Hrun.
    destruct (run_received _ _ _ _ _ _ Ht Hrun) as [_ Hrun1].
    destruct (pass_run A evs _ s' R (for_peers A m (snapshot R (rooms s))) Hrun1)
      as (k' & new & Ht' & Hl & Hcase).
    { simpl. by rewrite lookup_insert_eq. }
    { apply relaying_for_peers. }
    { done. }
    destruct Hcase as [(Hk' & Hp & _)|(e & Hin & He & _)].
    + exists k', new. simpl in Hl. rewrite app_nil_r in Hl.
      rewrite pending_for_peers in Hp. done.
    + rewrite (Hexc e Hin) in He. done.
Qed.

(** ** Who is in a room *)

Lemma elem_of_members_join room ws rooms rooms' c R :
  join room ws rooms = Ok rooms' →
  c ∈ members R rooms' ↔ c ∈ members R rooms ∨ (c = ws ∧ R = room).
Proof.
  rewrite join_Ok. intros [= <-].
  destruct (decide (R = room)) as [->|Hne].
  - rewrite members_insert. set_solver.
  - rewrite members_insert_ne by done. naive_solver.
Qed.

Lemma elem_of_members_leave room ws rooms rooms' c R :
  leave room ws rooms = Ok rooms' →
  c ∈ members R rooms' ↔ c ∈ members R rooms ∧ ¬ (c = ws ∧ R = room).
Proof.
  intros Hl. destruct (decide (R = room)) as [->|Hne].
  - rewrite (leave_members _ _ _ _ Hl). set_solver.
  - unfold members. rewrite (leave_lookup_ne _ _ _ _ _ Hl Hne). naive_solver.
Qed.

Lemma membership_exact_init : membership_exact init.
Proof.
  intros c R. simpl. unfold members. rewrite !lookup_empty. simpl.
  split; [set_solver | by intros (k & ? & _)].
Qed.

(** A transition of one handler does not move the other connections. *)
Lemma handler_step_members_other ws ev point rooms t' rooms' new c R :
  handler_step ws ev point rooms t' rooms' new → c ≠ ws →
  c ∈ members R rooms' ↔ c ∈ members R rooms.
Proof.
  destruct 1; intros Hne; try done;
    match goal with
    | Hj : join _ _ _ = _ |- _ => rewrite (elem_of_members_join _ _ _ _ _ _ Hj)
    | Hl : leave _ _ _ = _ |- _ => rewrite (elem_of_members_leave _ _ _ _ _ _ Hl)
    end; naive_solver.
Qed.

(** Its own connection is in a room exactly when it stops inside the loop,
    and then in the room it resolved. *)
Lemma handler_step_members_own ws ev point rooms t' rooms' new :
  handler_step ws ev point rooms t' rooms' new →
  (∀ R, ws ∈ members R rooms ↔
        ∃ k, point = Some (Task R k) ∧ relaying k = true) →
  ∀ R, ws ∈ members R rooms' ↔
       ∃ k, t' = Task R k ∧ relaying k = true.
Proof.
  destruct 1; intros Hws R;
    repeat match goal with
      | Hj : join _ _ _ = _ |- _ =>
          rewrite (elem_of_members_join _ _ _ _ _ _ Hj); clear Hj
      | Hl : leave _ _ _ = _ |- _ =>
          rewrite (elem_of_members_leave _ _ _ _ _ _ Hl); clear Hl
      end;
    rewrite (Hws R); clear Hws;
    try destruct (is_WebSocketDisconnect _);
    try match goal with
      | |- context [for_peers ?w ?m ?l] => pose proof (relaying_for_peers w m l)
      end;
    naive_solver.
Qed.

Lemma membership_exact_resume ws ev s t' rooms' new :
  membership_exact s →
  handler_step ws ev (tasks s !! ws) (rooms s) t' rooms' new →
  membership_exact (resume ws t' rooms' new s).
Proof.
  intros Inv Hh c R. simpl. destruct (decide (c = ws)) as [->|Hne].
  - rewrite lookup_insert_eq.
    rewrite (handler_step_members_own _ _ _ _ _ _ _ Hh (Inv ws) R).
    naive_solver.
  - rewrite lookup_insert_ne by done. rewrite <- (Inv c R).
    by eapply handler_step_members_other.
Qed.

Lemma membership_exact_step ev s s' :
  membership_exact s → step ev s = Some s' → membership_exact s'.
Proof.
  intros Inv (t' & rooms' & new & Hh & ->)%step_handler_step.
  by eapply membership_exact_resume.
Qed.

Lemma membership_exact_reachable s : reachable s → membership_exact s.
Proof.
  apply reachable_invariant;
    [apply membership_exact_init | apply membership_exact_step].
Qed.

(** ** Rooms do not mix *)

Lemma for_peers_AwaitSend ws msg l m p todo :
  for_peers ws msg l = AwaitSend m p todo →
  m = msg ∧ p ≠ ws ∧ ∀ c, c ∈ p :: todo → c ∈ l.
Proof.
  induction l as [|q l IH]; simpl; [done|]. case_decide as Hq.
  - intros (-> & ? & Hin)%IH. split_and!; [done..|].
    intros c Hc. right. by apply Hin.
  - intros [= -> -> ->]. done.
Qed.

Lemma isolation_init : isolation init.
Proof.
  split_and!; [apply membership_exact_init|..].
  - intros A R m p todo Ht. simpl in Ht. by rewrite lookup_empty in Ht.
  - intros A B m d Hin. simpl in Hin. by apply elem_of_nil in Hin.
Qed.

Lemma members_room_of s c R :
  membership_exact s → c ∈ members R (rooms s) → room_of c s = Some R.
Proof.
  intros Inv (k & Hk & _)%Inv. unfold room_of. by rewrite Hk.
Qed.

Lemma isolation_step ev s s' :
  isolation s → step ev s = Some s' → isolation s'.
Proof.
  intros (Hmem & Hpeers & Hlog) Hstep.
  split_and!; [by eapply membership_exact_step|..].
  - intros A R m p todo Ht' c Hc.
    eapply step_room_of; [done|].
    destruct (decide (A = event_conn ev)) as [->|Hne].
    + apply step_handler_step in Hstep as (t' & rooms' & new & Hh & ->).
      simpl in Ht'. rewrite lookup_insert_eq in Ht'. simplify_eq.
      destruct (tasks s !! event_conn ev) as [[r0 k0]|] eqn:Ht;
        inversion Hh; subst; clear Hh;
        match goal with
        | H : for_peers _ _ _ = AwaitSend _ _ _ |- _ =>
            apply for_peers_AwaitSend in H as (_ & _ & Hsub)
        | H : (if _ then _ else _) = AwaitSend _ _ _ |- _ =>
            by destruct (is_WebSocketDisconnect _)
        end.
      * apply members_room_of; [done|]. by apply elem_of_snapshot, Hsub.
      * eapply Hpeers; [done|]. right. by apply Hsub.
      * eapply Hpeers; [done|]. right. by apply Hsub.
    + rewrite (step_tasks_ne _ _ _ _ Hstep Hne) in Ht'. by eapply Hpeers.
  - intros A B m d Hin.
    pose proof Hstep as (t' & rooms' & new & Hh & ->)%step_handler_step.
    simpl in Hin. apply elem_of_app in Hin as [Hin|Hin].
    + destruct (Hlog _ _ _ _ Hin) as (R & HA & HB).
      exists R. split; by eapply step_room_of.
    + destruct (handler_step_new_send _ _ _ _ _ _ _ _ _ _ _ Hh Hin)
        as (-> & R & todo & Ht).
      exists R. split; eapply step_room_of; try done.
      * unfold room_of. by rewrite Ht.
      * eapply Hpeers; [done|]. left.
Qed.

Lemma isolation_reachable s : reachable s → isolation s.
Proof. apply reachable_invariant; [apply isolation_init | apply isolation_step]. Qed.

(** C4.  In every state the process can reach: when the handler of B resolved
    room R1 and the handler of A resolved a different room R2 (each handler
    joins the one room it resolved and no other), no [send_text] call of A was
    ever made on B.  And the pass A starts on a message is the same whatever
    the registry holds for the other rooms: it reads [rooms] at R2 only. *)
Theorem rooms_are_isolated s A B R1 R2 :
  reachable s →
  room_of A s = Some R2 → room_of B s = Some R1 → R1 ≠ R2 →
  (∀ m d, ObsSend A B m d ∉ log s) ∧
  (∀ m rooms2, rooms2 !! R2 = rooms s !! R2 →
     (step (Received A (Ok m)) (System rooms2 (tasks s) (log s)) ≫= pc_of A) =
     (step (Received A (Ok m)) s ≫= pc_of A)).
Proof.
  intros (_ & _ & Hlog)%isolation_reachable HA HB Hne. split.
  - intros m d (R & HA' & HB')%Hlog. congruence.
  - intros m rooms2 Heq. unfold step, room_of in *. simpl.
    destruct (tasks s !! A) as [[r k]|]; [|done]. simpl in HA. simplify_eq.
    destruct k; try done. simpl. unfold snapshot. by rewrite Heq.
Qed.

(** ** Join once, clean up once *)

Lemma joins_of_app c l1 l2 : joins_of c (l1 ++ l2) = joins_of c l1 ++ joins_of c l2.
Proof. apply omap_app. Qed.

Lemma leaves_of_app c l1 l2 :
  leaves_of c (l1 ++ l2) = leaves_of c l1 ++ leaves_of c l2.
Proof. apply omap_app. Qed.

Lemma handler_step_lifecycle_ne ws ev t rooms t' rooms' new c :
  handler_step ws ev t rooms t' rooms' new → c ≠ ws →
  joins_of c new = [] ∧ leaves_of c new = [].
Proof.
  destruct 1; intros Hne; unfold joins_of, leaves_of; simpl;
    by rewrite ?decide_False by done.
Qed.

Lemma lifecycle_of_relaying R k js ls :
  relaying k = true →
  lifecycle_of (Some (Task R k)) js ls ↔ js = [R] ∧ ls = [].
Proof. by destruct k. Qed.

Lemma handler_step_lifecycle ws ev t rooms t' rooms' new js ls :
  handler_step ws ev t rooms t' rooms' new →
  lifecycle_of t js ls →
  lifecycle_of (Some t') (js ++ joins_of ws new) (ls ++ leaves_of ws new).
Proof.
  destruct 1; unfold joins_of, leaves_of; simpl omap;
    rewrite ?decide_True by done; simpl omap; rewrite ?app_nil_r;
    try (apply lifecycle_of_relaying, relaying_for_peers);
    intros [-> ->]; simpl; try by eauto.
  destruct (is_WebSocketDisconnect _); by right.
Qed.

Lemma lifecycle_init : lifecycle init.
Proof. intros c. simpl. by rewrite lookup_empty. Qed.

Lemma lifecycle_step ev s s' : lifecycle s → step ev s = Some s' → lifecycle s'.
Proof.
  intros Inv (t' & rooms' & new & Hh & ->)%step_handler_step c. simpl.
  rewrite joins_of_app, leaves_of_app. specialize (Inv c).
  destruct (decide (c = event_conn ev)) as [->|Hne].
  - rewrite lookup_insert_eq. by eapply handler_step_lifecycle.
  - rewrite lookup_insert_ne by done.
    destruct (handler_step_lifecycle_ne _ _ _ _ _ _ _ c Hh Hne) as [-> ->].
    by rewrite !app_nil_r.
Qed.

Lemma lifecycle_reachable s : reachable s → lifecycle s.
Proof. apply reachable_invariant; [apply lifecycle_init | apply lifecycle_step]. Qed.

(** A transition in which a handler leaves its loop is one run of the cleanup:
    the registry it leaves is the one [leave] returns on the registry it
    found, and the log gains that one cleanup. *)
Lemma exit_step_runs_leave ev s s' c R k k' :
  step ev s = Some s' →
  tasks s !! c = Some (Task R k) → relaying k = true →
  tasks s' !! c = Some (Task R k') → finished k' = true →
  leave R c (rooms s) = Ok (rooms s') ∧
  ∃ new, log s' = log s ++ new ∧ leaves_of c new = [R].
Proof.
  intros Hstep Ht Hk Ht' Hk'.
  pose proof Hstep as (t' & rooms' & new & Hh & ->)%step_handler_step.
  destruct (decide (c = event_conn ev)) as [->|Hne].
  - rewrite Ht in Hh. simpl in Ht'. rewrite lookup_insert_eq in Ht'.
    injection Ht' as ->. cbn [resume rooms log].
    inversion Hh; simplify_eq/=; try done;
      try (match goal with
           | H : finished (for_peers ?a ?b ?l) = true |- _ =>
               pose proof (relaying_for_peers a b l);
               by destruct (for_peers a b l)
           end);
      (split; [done|]); eexists; (split; [done|]);
      unfold leaves_of; simpl; by rewrite decide_True.
  - simpl in Ht'. rewrite lookup_insert_ne in Ht' by done.
    rewrite Ht in Ht'. simplify_eq. by destruct k'.
Qed.

(** C3, as the handler has it.  For the handler of a connection [c], in any
    state the process can reach: while it is inside its loop the cleanup has
    not run; once it has ended after entering the loop, whichever way it
    ended, the cleanup has run exactly once, for its room.  Every transition
    that takes it out of its loop leaves the registry that [leave] returns on
    the registry it found, and brings the number of its cleanups to one.
    When it waits for a message and the read raises [e], the cleanup runs,
    with the same effect on the registry for every [e], and the handler ends:
    it returns when [e] is a [WebSocketDisconnect], and raises [e] to its
    caller otherwise.  When it is in a send that raises an [e] that is not an
    [Exception], the cleanup runs with that same effect and the handler ends
    by raising [e]. *)
Theorem cleanup_runs_once_on_every_exit s c R k :
  reachable s →
  tasks s !! c = Some (Task R k) →
  (relaying k = true → leaves_of c (log s) = []) ∧
  (finished k = true → joins_of c (log s) = [R] → leaves_of c (log s) = [R]) ∧
  (k = AwaitReceive → ∀ e, ∃ rooms',
     leave R c (rooms s) = Ok rooms' ∧
     step (Received c (Raise e)) s =
       Some (resume c
               (Task R (if is_WebSocketDisconnect e then Returned else Raised e))
               rooms' [ObsLeave c R] s)) ∧
  (∀ m p todo e, k = AwaitSend m p todo → is_Exception e = false →
     ∃ rooms',
       leave R c (rooms s) = Ok rooms' ∧
       step (Sent c (Raise e)) s =
         Some (resume c (Task R (Raised e)) rooms'
                 [ObsSend c p m false; ObsLeave c R] s)) ∧
  (relaying k = true → ∀ ev s' k',
     step ev s = Some s' →
     tasks s' !! c = Some (Task R k') → finished k' = true →
     leave R c (rooms s) = Ok (rooms s') ∧ leaves_of c (log s') = [R]).
Proof.
  intros Hlc%lifecycle_reachable Ht. specialize (Hlc c). rewrite Ht in Hlc.
  assert (relaying k = true → leaves_of c (log s) = []) as Hnone.
  { intros Hk. destruct k; try done; by destruct Hlc. }
  split_and!.
  - done.
  - intros Hk Hj. destruct k; try done;
      by destruct Hlc as [[Hj' ?]|[? ?]]; [rewrite Hj' in Hj|].
  - intros -> e. destruct (unwind_leave R c e (rooms s)) as (rooms' & Hl & _).
    exists rooms'. split; [done|]. by apply step_receive_raised.
  - intros m p todo e -> He.
    destruct (unwind_leave R c e (rooms s)) as (rooms' & Hl & _).
    exists rooms'. split; [done|].
    apply handler_step_step. rewrite Ht. by constructor.
  - intros Hk ev s' k' Hstep Ht' Hk'.
    destruct (exit_step_runs_leave _ _ _ _ _ _ _ Hstep Ht Hk Ht' Hk')
      as (Hl & new & Hlog & Hnew).
    split; [done|]. by rewrite Hlog, leaves_of_app, (Hnone Hk), Hnew.
Qed.

(** ** Room keys are kept *)

Lemma handler_step_dom ws ev t rooms t' rooms' new :
  handler_step ws ev t rooms t' rooms' new →
  dom rooms ⊆ dom rooms' ∧
  ∀ c R, R ∈ joins_of c new → R ∈ dom rooms'.
Proof.
  destruct 1; unfold joins_of; simpl omap;
    repeat match goal with
      | Hj : join _ _ _ = _ |- _ => apply join_dom in Hj as ->
      | Hl : leave _ _ _ = _ |- _ => apply leave_dom in Hl as ->
      end;
    (split; [set_solver|]); intros c R; try (by intros ?%elem_of_nil).
  case_decide; simpl; [|by intros ?%elem_of_nil].
  intros ->%list_elem_of_singleton. set_solver.
Qed.

Lemma step_dom ev s s' :
  step ev s = Some s' → dom (rooms s) ⊆ dom (rooms s').
Proof.
  intros (t' & rooms' & new & Hh & ->)%step_handler_step. simpl.
  by apply handler_step_dom in Hh as [? _].
Qed.

Lemma run_dom evs s s' :
  run evs s = Some s' → dom (rooms s) ⊆ dom (rooms s').
Proof.
  revert s. induction evs as [|ev evs IH]; intros s Hrun; simpl in Hrun.
  - by simplify_eq.
  - destruct (step ev s) as [s1|] eqn:Hs; [|done].
    etrans; [by eapply step_dom | by apply IH].
Qed.

Lemma joined_rooms_present_reachable s : reachable s → joined_rooms_present s.
Proof.
  apply reachable_invariant.
  - intros c R Hin. simpl in Hin. by apply elem_of_nil in Hin.
  - intros ev s1 s2 Inv (t' & rooms' & new & Hh & ->)%step_handler_step c R.
    simpl. rewrite joins_of_app.
    apply handler_step_dom in Hh as [Hsub Hnew].
    intros [Hin|Hin]%elem_of_app; [|by eapply Hnew].
    apply Hsub. by eapply Inv.
Qed.

(** C10.  Let R be a room that some handler has joined.  In the current
    state and in every later one, R is a key of [rooms], and the set it maps
    to holds exactly the connections whose handler is inside its loop for R:
    the empty set whenever there is none.  The cleanup of any connection for
    R keeps the keys of [rooms] as they are and maps R to its former members
    without that connection; so when that connection was the last member, R
    stays, mapped to the empty set. *)
Theorem room_key_is_never_deleted s c R :
  reachable s →
  R ∈ joins_of c (log s) →
  (∀ evs s', run evs s = Some s' →
     ∃ S, rooms s' !! R = Some S ∧
       ∀ x, x ∈ S ↔ ∃ k, tasks s' !! x = Some (Task R k) ∧ relaying k = true) ∧
  (∀ ws, ∃ rooms',
     leave R ws (rooms s) = Ok rooms' ∧
     dom rooms' = dom (rooms s) ∧
     rooms' !! R = Some (members R (rooms s) ∖ {[ws]}) ∧
     (members R (rooms s) ⊆ {[ws]} → rooms' !! R = Some ∅)).
Proof.
  intros Hreach Hin.
  pose proof (joined_rooms_present_reachable s Hreach c R Hin) as Hdom.
  split.
  - intros evs s' Hrun.
    pose proof (membership_exact_reachable s' (reachable_run _ _ _ Hreach Hrun))
      as Hmem.
    apply (run_dom _ _ _ Hrun), elem_of_dom in Hdom as [S HS].
    exists S. split; [done|]. intros x. rewrite <- (Hmem x R).
    unfold members. by rewrite HS.
  - intros ws. apply elem_of_dom in Hdom as [S HS].
    assert (members R (rooms s) = S) as HmS by (unfold members; by rewrite HS).
    exists (if decide (ws ∈ members R (rooms s))
            then <[R := members R (rooms s) ∖ {[ws]}]> (rooms s)
            else rooms s).
    pose proof (leave_Ok R ws (rooms s)) as Hl.
    assert ((if decide (ws ∈ members R (rooms s))
             then <[R := members R (rooms s) ∖ {[ws]}]> (rooms s)
             else rooms s) !! R = Some (members R (rooms s) ∖ {[ws]})) as Hlk.
    { case_decide as Hws; [by rewrite lookup_insert_eq|].
      rewrite HS, HmS. f_equal. rewrite HmS in Hws. set_solver. }
    split_and!; [done | by eapply leave_dom | done |].
    intros Hsub. rewrite Hlk. f_equal. set_solver.
Qed.

(** ** Empty passes *)

Lemma for_peers_alone ws msg l :
  (∀ p, p ∈ l → p = ws) → for_peers ws msg l = AwaitReceive.
Proof.
  induction l as [|q l IH]; intros Hall; simpl; [done|].
  rewrite decide_True by (apply Hall; left).
  apply IH. intros p Hp. apply Hall. by right.
Qed.

(** Suspending a handler again where it already was changes nothing. *)
Lemma resume_same ws t s :
  tasks s !! ws = Some t → resume ws t (rooms s) [] s = s.
Proof.
  intros Ht. destruct s as [r ts l]. unfold resume. simpl in *.
  by rewrite insert_id, app_nil_r.
Qed.

(** A message read by a handler whose snapshot holds nobody else leaves the
    whole state as it was. *)
Lemma step_received_alone s A R m :
  tasks s !! A = Some (Task R AwaitReceive) →
  (∀ p, p ∈ snapshot R (rooms s) → p = A) →
  step (Received A (Ok m)) s = Some s.
Proof.
  intros Ht Hall.
  rewrite (step_received _ _ _ _ Ht), (for_peers_alone _ _ _ Hall).
  by rewrite resume_same.
Qed.

(** C5.  For a room that is not a key of [rooms]: the snapshot is the empty
    list (where a subscript would have raised [KeyError]); and when a handler
    of that room reads a message, the pass ends at once, with the handler
    waiting for its next message and the registry and the log of calls as
    they were: nobody was sent anything and nothing was raised. *)
Theorem unknown_room_snapshot_is_empty s A R m :
  rooms s !! R = None →
  tasks s !! A = Some (Task R AwaitReceive) →
  snapshot R (rooms s) = [] ∧
  Py.getitem R (rooms s) = Raise KeyError ∧
  step (Received A (Ok m)) s = Some s.
Proof.
  intros Hr Ht.
  assert (snapshot R (rooms s) = []) as Hsnap by (unfold snapshot; by rewrite Hr).
  split_and!; [done | unfold Py.getitem; by rewrite Hr |].
  apply (step_received_alone _ _ R); [done|].
  rewrite Hsnap. by intros p ?%elem_of_nil.
Qed.

(** C8.  When the room of a handler has no member other than the handler's
    own connection, a message it reads changes nothing at all: the handler
    waits for its next message, no call is logged, the registry is as it was;
    and every schedule that follows runs exactly as if the message had never
    been read, so nothing was kept of it to deliver later. *)
Theorem lonely_message_is_dropped s A R m :
  tasks s !! A = Some (Task R AwaitReceive) →
  members R (rooms s) ⊆ {[A]} →
  step (Received A (Ok m)) s = Some s ∧
  ∀ evs, run (Received A (Ok m) :: evs) s = run evs s.
Proof.
  intros Ht Hsub.
  assert (step (Received A (Ok m)) s = Some s) as Hstep.
  { apply (step_received_alone _ _ R); [done|].
    intros p Hp%elem_of_snapshot. set_solver. }
  split; [done|]. intros evs. cbn [run]. by rewrite Hstep.
Qed.

(** ** The registry operations *)

(** C6.  The cleanup of lines 53-54 never raises.  It takes the connection
    out of the member set of its room and leaves every other room as it was;
    when the room is not a key, or the connection is not in the room, the
    registry is unchanged; and running it a second time gives the registry
    the first run gave. *)
Theorem leave_removes_and_is_idempotent (rooms : gmap string (gset nat)) room ws :
  ∃ rooms',
    leave room ws rooms = Ok rooms' ∧
    members room rooms' = members room rooms ∖ {[ws]} ∧
    (∀ r, r ≠ room → rooms' !! r = rooms !! r) ∧
    (rooms !! room = None → rooms' = rooms) ∧
    (ws ∉ members room rooms → rooms' = rooms) ∧
    leave room ws rooms' = Ok rooms' ∧
    bind (leave room ws rooms) (leave room ws) = leave room ws rooms.
Proof.
  pose proof (leave_Ok room ws rooms) as Hl.
  eexists. split; [exact Hl|].
  assert (leave room ws
            (if decide (ws ∈ members room rooms)
             then <[room:=members room rooms ∖ {[ws]}]> rooms else rooms) =
          Ok (if decide (ws ∈ members room rooms)
              then <[room:=members room rooms ∖ {[ws]}]> rooms else rooms))
    as Htwice.
  { rewrite leave_Ok. f_equal.
    rewrite (leave_members _ _ _ _ Hl).
    rewrite decide_False by set_solver. done. }
  split_and!.
  - by eapply leave_members.
  - intros r Hne. by eapply leave_lookup_ne.
  - intros Hr. rewrite decide_False; [done|].
    rewrite (members_None _ _ Hr). set_solver.
  - intros Hws. by rewrite decide_False.
  - done.
  - rewrite Hl. simpl. done.
Qed.

(** On the registry alone: for a connection that is not a member of the
    room, the join of lines 31-33 followed at once by the cleanup of lines
    53-54 raises nothing and leaves the member set of the room as it was
    before the join, and every other room untouched. *)
Lemma join_then_leave_of_non_member (rooms : gmap string (gset nat)) room ws :
  ws ∉ members room rooms →
  ∃ rooms1 rooms2,
    join room ws rooms = Ok rooms1 ∧
    leave room ws rooms1 = Ok rooms2 ∧
    members room rooms2 = members room rooms ∧
    (∀ r, r ≠ room → rooms2 !! r = rooms !! r) ∧
    (members room rooms = ∅ → members room rooms2 = ∅).
Proof.
  intros Hws.
  pose proof (join_Ok room ws rooms) as Hj.
  pose proof (leave_Ok room ws (<[room:=members room rooms ∪ {[ws]}]> rooms))
    as Hl.
  eexists _, _. split; [exact Hj|]. split; [exact Hl|].
  assert (members room
            (if decide (ws ∈ members room
                          (<[room:=members room rooms ∪ {[ws]}]> rooms))
             then <[room:=members room
                            (<[room:=members room rooms ∪ {[ws]}]> rooms)
                          ∖ {[ws]}]>
                    (<[room:=members room rooms ∪ {[ws]}]> rooms)
             else <[room:=members room rooms ∪ {[ws]}]> rooms)
          = members room rooms) as Hm.
  { rewrite (leave_members _ _ _ _ Hl), members_insert. set_solver. }
  split_and!.
  - done.
  - intros r Hne. rewrite (leave_lookup_ne _ _ _ _ _ Hl Hne).
    by rewrite lookup_insert_ne.
  - intros He. by rewrite Hm.
Qed.

(** A handler that joins was not a member before: the premise of the
    previous lemma holds at every join the process performs. *)
Lemma join_of_new_member s ws R :
  reachable s → tasks s !! ws = Some (Task R AwaitAccept) →
  ∀ r, ws ∉ members r (rooms s).
Proof.
  intros Hmem%membership_exact_reachable Ht r (k & Hk & Hr)%Hmem.
  rewrite Ht in Hk. by simplify_eq.
Qed.

(** C7.  In every state the process can reach, for every connection whose
    handler is about to join and the room it resolved: when its [accept]
    returns and its first read ends the handler at once, by a disconnect or
    by any other exception, the join of lines 31-33 and the cleanup of lines
    53-54 run one after the other, neither raises, and the registry is left
    with every room's member set as it was before the join; a room that had
    no member has none again. *)
Theorem join_then_leave_restores_members s c R e :
  reachable s →
  tasks s !! c = Some (Task R AwaitAccept) →
  ∃ rooms1 rooms2 s',
    join R c (rooms s) = Ok rooms1 ∧
    leave R c rooms1 = Ok rooms2 ∧
    run [Accepted c (Ok ()); Received c (Raise e)] s = Some s' ∧
    rooms s' = rooms2 ∧
    (∀ r, members r (rooms s') = members r (rooms s)) ∧
    (members R (rooms s) = ∅ → members R (rooms s') = ∅).
Proof.
  intros Hreach Ht.
  pose proof (join_of_new_member s c R Hreach Ht R) as Hout.
  destruct (join_then_leave_of_non_member (rooms s) R c Hout)
    as (rooms1 & rooms2 & Hj & Hl & Hm & Hother & _).
  exists rooms1, rooms2. eexists. split_and!; [done..| | | |].
  - cbn [run]. rewrite (step_accepted _ _ _ _ Ht).
    rewrite join_Ok in Hj. injection Hj as <-.
    erewrite step_receive_raised;
      [reflexivity | simpl; apply lookup_insert_eq | exact Hl].
  - done.
  - intros r. simpl. destruct (decide (r = R)) as [->|Hne]; [done|].
    unfold members. by rewrite Hother.
  - intros He. simpl. by rewrite Hm.
Qed.

(** ** The default room *)

Lemma query_get_absent key default q :
  key ∉ q.*1 → query_get key default q = default.
Proof.
  revert default. induction q as [|[k v] q IH]; intros default Hk; simpl;
    [done|].
  rewrite decide_False by (intros ->; apply Hk; left).
  apply IH. intros Hin. apply Hk. by right.
Qed.

(** Two new connections are accepted one after the other. *)
Lemma run_two_connections s X Y qX qY :
  tasks s !! X = None → tasks s !! Y = None → X ≠ Y →
  ∃ s',
    run [Connect X qX; Accepted X (Ok ()); Connect Y qY; Accepted Y (Ok ())] s
      = Some s' ∧
    tasks s' !! X = Some (Task (resolve_room qX) AwaitReceive) ∧
    tasks s' !! Y = Some (Task (resolve_room qY) AwaitReceive) ∧
    X ∈ members (resolve_room qX) (rooms s') ∧
    Y ∈ members (resolve_room qY) (rooms s').
Proof.
  intros HX HY Hne. cbn [run].
  rewrite (step_connect _ _ _ HX).
  erewrite step_accepted by (simpl; apply lookup_insert_eq).
  erewrite step_connect by (simpl; by rewrite !lookup_insert_ne).
  erewrite step_accepted by (simpl; apply lookup_insert_eq).
  eexists. split; [done|]. cbn [resume tasks rooms].
  split_and!.
  - by rewrite !lookup_insert_ne, lookup_insert_eq by done.
  - by rewrite lookup_insert_eq.
  - destruct (decide (resolve_room qX = resolve_room qY)) as [Heq|Hq].
    + rewrite Heq, !members_insert. set_solver.
    + rewrite members_insert_ne, members_insert by done. set_solver.
  - rewrite members_insert. set_solver.
Qed.

(** C9.  A connection whose query string has no [room] key resolves the room
    name ["default"].  When two new connections X and Y both come without the
    key and are accepted, both handlers wait for a message in room
    ["default"], both connections are members of that room, and each can get a
    message through to the other. *)
Theorem omitted_room_is_default s X Y qX qY :
  tasks s !! X = None → tasks s !! Y = None → X ≠ Y →
  "room" ∉ qX.*1 → "room" ∉ qY.*1 →
  resolve_room qX = "default" ∧
  resolve_room qY = "default" ∧
  ∃ s1,
    run [Connect X qX; Accepted X (Ok ()); Connect Y qY; Accepted Y (Ok ())] s
      = Some s1 ∧
    tasks s1 !! X = Some (Task "default" AwaitReceive) ∧
    tasks s1 !! Y = Some (Task "default" AwaitReceive) ∧
    X ∈ members "default" (rooms s1) ∧
    Y ∈ members "default" (rooms s1) ∧
    can_send X Y s1 ∧
    can_send Y X s1.
Proof.
  intros HX HY Hne HqX HqY.
  assert (resolve_room qX = "default") as HrX by by apply query_get_absent.
  assert (resolve_room qY = "default") as HrY by by apply query_get_absent.
  split_and!; [done..|].
  destruct (run_two_connections s X Y qX qY HX HY Hne)
    as (s1 & Hrun & HtX & HtY & HmX & HmY).
  rewrite HrX in HtX, HmX. rewrite HrY in HtY, HmY.
  exists s1. split_and!; [done..| |].
  - by eapply pass_delivers.
  - by eapply pass_delivers.
Qed.

(** * The properties on the scenarios *)

Lemma scenario_reachable evs : is_Some (run evs init) → reachable (scenario evs).
Proof.
  intros [s Hs]. exists evs. unfold scenario. by rewrite Hs.
Qed.

Ltac absent :=
  let H := fresh in
  intros; intros H; simpl in H;
  repeat (apply elem_of_cons in H as [H|H]; [discriminate H|]);
  by apply elem_of_nil in H.

Ltac ran := apply scenario_reachable; vm_compute; eexists; reflexivity.



(** C2 on [trio]: connection 2 disconnects during the pass of connection 1
    and the send to it fails; connection 3 is still called. *)
Lemma failed_send_in_trio :
  ∃ k' new,
    tasks trio_after_offer !! 1 = Some (Task "default" k') ∧
    relaying k' = true ∧
    log trio_after_offer = log trio ++ new ∧
    (sends_of 1 new).*1 ++ pending 1 k'
      = fan_out 1 "offer" (snapshot "default" (rooms trio)).
Proof.
  apply (proj2 (send_failure_is_swallowed trio 1 "default" "offer" eq_refl)
           [Received 2 (Raise WebSocketDisconnect);
            Sent 1 (Raise RuntimeError); Sent 1 (Ok ())]).
  - absent.
  - intros e H.
    repeat (apply elem_of_cons in H as [H|H]; [by simplify_eq|]).
    by apply elem_of_nil in H.
  - vm_compute. reflexivity.
Defined.

(** C3: a handler that read [WebSocketDisconnect] has returned; one that
    read [KeyError] has raised it.  Both ran the cleanup. *)
Lemma read_error_is_raised_again :
  (run [Connect 1 []; Accepted 1 (Ok ());
        Received 1 (Raise WebSocketDisconnect)] init ≫= pc_of 1)
    = Some Returned ∧
  (run [Connect 1 []; Accepted 1 (Ok ());
        Received 1 (Raise KeyError)] init ≫= pc_of 1)
    = Some (Raised KeyError) ∧
  step (Received 1 (Raise KeyError)) alone
    ≠ step (Received 1 (Raise WebSocketDisconnect)) alone.
Proof.
  split_and!; [vm_compute; reflexivity..|].
  vm_compute. intros H. discriminate H.
Qed.

Lemma cleanup_after_read_error :
  leaves_of 1 (log hung_up) = ["default"].
Proof.
  apply (proj1 (proj2 (cleanup_runs_once_on_every_exit hung_up 1 "default"
                         (Raised KeyError) ltac:(ran) eq_refl)));
    reflexivity.
Defined.

(** C4 on [two_rooms]. *)
Lemma no_send_across_two_rooms :
  room_of 2 two_rooms = Some "beta" ∧
  room_of 1 two_rooms = Some "alpha" ∧
  ∀ m d, ObsSend 2 1 m d ∉ log two_rooms.
Proof.
  split_and!; [reflexivity..|].
  apply (proj1 (rooms_are_isolated two_rooms 2 1 "alpha" "beta"
                  ltac:(ran) eq_refl eq_refl ltac:(discriminate))).
Defined.

(** C5 on [ghost]. *)
Lemma snapshot_of_unknown_room :
  snapshot "nowhere" (rooms ghost) = [] ∧
  Py.getitem "nowhere" (rooms ghost) = Raise KeyError ∧
  step (Received 1 (Ok "ping")) ghost = Some ghost.
Proof.
  apply (unknown_room_snapshot_is_empty ghost 1 "nowhere" "ping");
    reflexivity.
Defined.

(** C7 on [lobby_knock]: a third connection comes to the default room of
    [lobby], is accepted, and its client is gone before the first message. *)
Lemma join_then_leave_beside_two_members :
  ∃ rooms1 rooms2 s',
    join "default" 3 (rooms lobby_knock) = Ok rooms1 ∧
    leave "default" 3 rooms1 = Ok rooms2 ∧
    run [Accepted 3 (Ok ()); Received 3 (Raise WebSocketDisconnect)]
      lobby_knock = Some s' ∧
    rooms s' = rooms2 ∧
    (∀ r, members r (rooms s') = members r (rooms lobby_knock)) ∧
    (members "default" (rooms lobby_knock) = ∅ →
     members "default" (rooms s') = ∅).
Proof.
  apply (join_then_leave_restores_members lobby_knock 3 "default"
           WebSocketDisconnect).
  - ran.
  - reflexivity.
Defined.

(** C8 on [alone]. *)
Lemma message_with_nobody_else :
  step (Received 1 (Ok "ping")) alone = Some alone ∧
  ∀ evs, run (Received 1 (Ok "ping") :: evs) alone = run evs alone.
Proof.
  apply (lonely_message_is_dropped alone 1 "default" "ping").
  - reflexivity.
  - compute_done.
Defined.

(** C9 from the start of the process. *)
Lemma two_connections_without_room :
  resolve_room [] = "default" ∧
  resolve_room [("name", "guest")] = "default" ∧
  ∃ s1,
    run [Connect 1 []; Accepted 1 (Ok ());
         Connect 2 [("name", "guest")]; Accepted 2 (Ok ())] init = Some s1 ∧
    tasks s1 !! 1 = Some (Task "default" AwaitReceive) ∧
    tasks s1 !! 2 = Some (Task "default" AwaitReceive) ∧
    1 ∈ members "default" (rooms s1) ∧
    2 ∈ members "default" (rooms s1) ∧
    can_send 1 2 s1 ∧
    can_send 2 1 s1.
Proof.
  apply (omitted_room_is_default init 1 2 [] [("name", "guest")]).
  - reflexivity.
  - reflexivity.
  - lia.
  - absent.
  - absent.
Defined.

(** C10 on [alone]: the last member leaves. *)
Lemma last_member_leaves :
  ∃ rooms',
    leave "default" 1 (rooms alone) = Ok rooms' ∧
    dom rooms' = dom (rooms alone) ∧
    rooms' !! "default" = Some (members "default" (rooms alone) ∖ {[1]}) ∧
    (members "default" (rooms alone) ⊆ {[1]} → rooms' !! "default" = Some ∅).
Proof.
  apply (proj2 (room_key_is_never_deleted alone 1 "default" ltac:(ran)
                  ltac:(vm_compute; left))).
Defined.

(** * Further properties of the handler *)

(** ** The registry operations compose *)

Lemma join_lookup room ws (rooms : gmap string (gset nat)) rooms' r :
  join room ws rooms = Ok rooms' →
  rooms' !! r =
    if decide (r = room) then Some (members room rooms ∪ {[ws]})
    else rooms !! r.
Proof.
  rewrite join_Ok. intros [= <-]. case_decide as Hr.
  - subst r. apply lookup_insert_eq.
  - by apply lookup_insert_ne.
Qed.

Lemma leave_lookup room ws (rooms : gmap string (gset nat)) rooms' r :
  leave room ws rooms = Ok rooms' →
  rooms' !! r =
    if decide (r = room ∧ ws ∈ members room rooms)
    then Some (members room rooms ∖ {[ws]})
    else rooms !! r.
Proof.
  rewrite leave_Ok. intros [= <-].
  destruct (decide (ws ∈ members room rooms)) as [Hin|Hin].
  - destruct (decide (r = room)) as [->|Hne].
    + rewrite decide_True by done. apply lookup_insert_eq.
    + rewrite decide_False by naive_solver. by apply lookup_insert_ne.
  - by rewrite decide_False by naive_solver.
Qed.

(** The member sets after a join and after a cleanup, for every room. *)
Lemma join_members_all room ws (rooms : gmap string (gset nat)) rooms' r :
  join room ws rooms = Ok rooms' →
  members r rooms' =
    if decide (r = room) then members room rooms ∪ {[ws]} else members r rooms.
Proof.
  intros Hj. unfold members at 1. rewrite (join_lookup _ _ _ _ _ Hj).
  by case_decide.
Qed.

Lemma leave_members_all room ws (rooms : gmap string (gset nat)) rooms' r :
  leave room ws rooms = Ok rooms' →
  members r rooms' =
    if decide (r = room) then members room rooms ∖ {[ws]} else members r rooms.
Proof.
  intros Hl. case_decide as Hr.
  - subst r. by eapply leave_members.
  - unfold members. by rewrite (leave_lookup_ne _ _ _ _ _ Hl Hr).
Qed.

(** X1.  The join of lines 31-33 never raises, whether or not the room is a
    key: afterwards the room is a key, mapped to its former members and the
    connection; every other room is as it was; joining a connection that is
    already a member changes nothing; and joining a second time gives the
    registry the first join gave. *)
Theorem join_adds_member_and_is_idempotent
    (rooms : gmap string (gset nat)) room ws :
  ∃ rooms',
    join room ws rooms = Ok rooms' ∧
    rooms' !! room = Some (members room rooms ∪ {[ws]}) ∧
    (∀ r, r ≠ room → rooms' !! r = rooms !! r) ∧
    (ws ∈ members room rooms → rooms' = rooms) ∧
    bind (join room ws rooms) (join room ws) = join room ws rooms.
Proof.
  pose proof (join_Ok room ws rooms) as Hj.
  eexists. split; [exact Hj|]. split_and!.
  - apply lookup_insert_eq.
  - intros r Hne. by apply lookup_insert_ne.
  - intros Hin. unfold members in *.
    destruct (rooms !! room) as [S|] eqn:HS; simpl in *; [|set_solver].
    apply insert_id. rewrite HS. f_equal. set_solver.
  - rewrite Hj. simpl. rewrite join_Ok, members_insert, insert_insert_eq.
    do 2 f_equal. set_solver.
Qed.

Lemma join_returns room ws (rooms : gmap string (gset nat)) :
  ∃ rooms', join room ws rooms = Ok rooms'.
Proof. rewrite join_Ok. eauto. Qed.

Lemma leave_returns room ws (rooms : gmap string (gset nat)) :
  ∃ rooms', leave room ws rooms = Ok rooms'.
Proof. rewrite leave_Ok. eauto. Qed.

Lemma result_registry_eq (x y : result (gmap string (gset nat))) a b :
  x = Ok a → y = Ok b → (∀ r, a !! r = b !! r) → x = y.
Proof. intros -> -> Hab. f_equal. by apply map_eq. Qed.

Ltac registry_cases :=
  repeat (case_decide; simplify_eq/=);
  first [ done | f_equal; set_solver | naive_solver ].

(** X2.  Joins and cleanups of two different connections can be run in
    either order, on the same room or on different ones, with the same
    registry as a result: the order in which the event loop runs two handlers
    through these lines does not matter. *)
Theorem registry_operations_commute
    (rooms : gmap string (gset nat)) r1 c1 r2 c2 :
  c1 ≠ c2 →
  bind (join r1 c1 rooms) (join r2 c2) = bind (join r2 c2 rooms) (join r1 c1) ∧
  bind (join r1 c1 rooms) (leave r2 c2) = bind (leave r2 c2 rooms) (join r1 c1) ∧
  bind (leave r1 c1 rooms) (leave r2 c2) = bind (leave r2 c2 rooms) (leave r1 c1).
Proof.
  intros Hc.
  destruct (join_returns r1 c1 rooms) as [j1 Hj1].
  destruct (join_returns r2 c2 rooms) as [j2 Hj2].
  destruct (leave_returns r1 c1 rooms) as [l1 Hl1].
  destruct (leave_returns r2 c2 rooms) as [l2 Hl2].
  rewrite Hj1, Hj2, Hl1, Hl2. simpl.
  destruct (join_returns r2 c2 j1) as [j12 Hj12].
  destruct (join_returns r1 c1 j2) as [j21 Hj21].
  destruct (leave_returns r2 c2 j1) as [jl Hjl].
  destruct (join_returns r1 c1 l2) as [lj Hlj].
  destruct (leave_returns r2 c2 l1) as [l12 Hl12].
  destruct (leave_returns r1 c1 l2) as [l21 Hl21].
  split_and!.
  - eapply result_registry_eq; [done..|]. intros r.
    rewrite (join_lookup _ _ _ _ r Hj12), (join_lookup _ _ _ _ r Hj21).
    rewrite (join_members_all _ _ _ _ r2 Hj1), (join_members_all _ _ _ _ r1 Hj2).
    rewrite (join_lookup _ _ _ _ r Hj1), (join_lookup _ _ _ _ r Hj2).
    registry_cases.
  - eapply result_registry_eq; [done..|]. intros r.
    rewrite (leave_lookup _ _ _ _ r Hjl), (join_lookup _ _ _ _ r Hlj).
    rewrite (join_members_all _ _ _ _ r2 Hj1), (leave_members_all _ _ _ _ r1 Hl2).
    rewrite (join_lookup _ _ _ _ r Hj1), (leave_lookup _ _ _ _ r Hl2).
    registry_cases.
  - eapply result_registry_eq; [done..|]. intros r.
    rewrite (leave_lookup _ _ _ _ r Hl12), (leave_lookup _ _ _ _ r Hl21).
    rewrite (leave_members_all _ _ _ _ r2 Hl1), (leave_members_all _ _ _ _ r1 Hl2).
    rewrite (leave_lookup _ _ _ _ r Hl1), (leave_lookup _ _ _ _ r Hl2).
    registry_cases.
Qed.

Lemma registry_commutes_on_one_room :
  bind (join "r" 1 {["r" := {[2]}]}) (leave "r" 2)
    = bind (leave "r" 2 {["r" := {[2]}]}) (join "r" 1) ∧
  bind (join "r" 1 {["r" := {[2]}]}) (leave "r" 2) = Ok {["r" := {[1]}]}.
Proof.
  split.
  - apply (registry_operations_commute {["r" := {[2]}]} "r" 1 "r" 2). lia.
  - vm_compute. reflexivity.
Defined.

(** X3.  Round trips on the registry.  The cleanup of a member followed by
    its join gives back the very registry it started from.  The join of a
    connection that is not a member followed by its cleanup gives back the
    registry with the room mapped to its former members: the same registry
    when the room was a key, and the registry with one more key, mapped to the
    empty set, when it was not. *)
Theorem registry_round_trips (rooms : gmap string (gset nat)) room ws :
  (ws ∈ members room rooms →
   bind (leave room ws rooms) (join room ws) = Ok rooms) ∧
  (ws ∉ members room rooms →
   bind (join room ws rooms) (leave room ws)
     = Ok (<[room := members room rooms]> rooms)) ∧
  (ws ∉ members room rooms → is_Some (rooms !! room) →
   bind (join room ws rooms) (leave room ws) = Ok rooms) ∧
  (rooms !! room = None →
   bind (join room ws rooms) (leave room ws) = Ok (<[room := ∅]> rooms)).
Proof.
  assert (ws ∉ members room rooms →
          bind (join room ws rooms) (leave room ws)
            = Ok (<[room := members room rooms]> rooms)) as Hjl.
  { intros Hout. rewrite join_Ok. simpl. rewrite leave_Ok, members_insert.
    rewrite decide_True by set_solver. rewrite insert_insert_eq.
    do 2 f_equal. set_solver. }
  split_and!.
  - intros Hin. rewrite leave_Ok, decide_True by done. simpl.
    rewrite join_Ok, members_insert, insert_insert_eq. f_equal.
    unfold members in *.
    destruct (rooms !! room) as [S|] eqn:HS; simpl in *; [|set_solver].
    apply insert_id. rewrite HS. f_equal.
    apply set_eq. intros x. destruct (decide (x = ws)); set_solver.
  - done.
  - intros Hout [S HS]. rewrite (Hjl Hout). f_equal.
    apply insert_id. unfold members. by rewrite HS.
  - intros Hr. rewrite Hjl.
    + by rewrite (members_None _ _ Hr).
    + rewrite (members_None _ _ Hr). set_solver.
Qed.

Lemma round_trip_on_two_members :
  bind (leave "r" 1 {["r" := {[1; 2]}]}) (join "r" 1) = Ok {["r" := {[1; 2]}]} ∧
  bind (join "lone" 1 {["r" := {[2]}]}) (leave "lone" 1)
    = Ok (<["lone" := ∅]> {["r" := {[2]}]}).
Proof.
  split.
  - apply (proj1 (registry_round_trips {["r" := {[1; 2]}]} "r" 1)).
    compute_done.
  - apply (proj2 (proj2 (proj2 (registry_round_trips {["r" := {[2]}]} "lone" 1)))).
    reflexivity.
Defined.

(** ** Who is in a room, and who is called *)

(** X4.  In every state the process can reach, the member set of a room holds
    exactly the connections whose handler is inside its loop and resolved
    that room.  Hence a connection is a member of at most one room, and a
    connection whose handler has not been accepted yet, or has ended, is a
    member of none: the registry holds no connection that is gone. *)
Theorem members_are_the_handlers_in_their_loop s :
  reachable s →
  (∀ c R, c ∈ members R (rooms s) ↔
          ∃ k, tasks s !! c = Some (Task R k) ∧ relaying k = true) ∧
  (∀ c R1 R2,
     c ∈ members R1 (rooms s) → c ∈ members R2 (rooms s) → R1 = R2) ∧
  (∀ c R k, tasks s !! c = Some (Task R k) → relaying k = false →
     ∀ r, c ∉ members r (rooms s)).
Proof.
  intros Hmem%membership_exact_reachable. split_and!.
  - exact Hmem.
  - intros c R1 R2 (k1 & H1 & _)%Hmem (k2 & H2 & _)%Hmem. congruence.
  - intros c R k Ht Hk r (k' & Hk' & Hr)%Hmem. congruence.
Qed.

Lemma nobody_left_after_hang_up :
  tasks hung_up !! 1 = Some (Task "default" (Raised KeyError)) ∧
  ∀ r, 1 ∉ members r (rooms hung_up).
Proof.
  split; [reflexivity|].
  apply (proj2 (proj2 (members_are_the_handlers_in_their_loop hung_up
                         ltac:(ran))) 1 "default" (Raised KeyError));
    reflexivity.
Defined.

Lemma joins_of_nonempty_app c l new :
  joins_of c l ≠ [] → joins_of c (l ++ new) ≠ [].
Proof.
  rewrite joins_of_app. destruct (joins_of c l); [done|]. by intros _.
Qed.

(** The join a connection has in the log is for the room its handler
    resolved. *)
Lemma lifecycle_joins s c R :
  lifecycle s → room_of c s = Some R → joins_of c (log s) ≠ [] →
  joins_of c (log s) = [R].
Proof.
  intros Hlc Hr Hj. specialize (Hlc c). unfold room_of in Hr.
  destruct (tasks s !! c) as [[R' k]|]; simpl in *; simplify_eq.
  destruct k; naive_solver.
Qed.

Lemma lifecycle_relaying s c R k :
  lifecycle s → tasks s !! c = Some (Task R k) → relaying k = true →
  joins_of c (log s) = [R].
Proof.
  intros Hlc Ht Hk. specialize (Hlc c). rewrite Ht in Hlc.
  by apply lifecycle_of_relaying in Hlc as [? _].
Qed.

Lemma callees_have_joined_step ev s s' :
  lifecycle s → membership_exact s → callees_have_joined s →
  step ev s = Some s' → callees_have_joined s'.
Proof.
  intros Hlc Hmem [Hpeers Hlog] Hstep.
  pose proof Hstep as (t' & rooms' & new & Hh & Hs')%step_handler_step.
  assert (∀ c, joins_of c (log s) ≠ [] → joins_of c (log s') ≠ []) as Hkeep.
  { intros c. rewrite Hs'. apply joins_of_nonempty_app. }
  split.
  - intros A R m p todo Ht'.
    destruct (decide (A = event_conn ev)) as [->|Hne].
    + rewrite Hs' in Ht'. simpl in Ht'. rewrite lookup_insert_eq in Ht'.
      simplify_eq.
      destruct (tasks s !! event_conn ev) as [[r0 k0]|] eqn:Ht;
        inversion Hh; subst; clear Hh;
        match goal with
        | H : for_peers _ _ _ = AwaitSend _ _ _ |- _ =>
            apply for_peers_AwaitSend in H as (_ & Hp & Hsub)
        | H : (if _ then _ else _) = AwaitSend _ _ _ |- _ =>
            by destruct (is_WebSocketDisconnect _)
        end;
        (split; [done|]); intros c Hc%Hsub; apply Hkeep.
      * apply elem_of_snapshot, Hmem in Hc as (k & Hk & Hr).
        by rewrite (lifecycle_relaying _ _ _ _ Hlc Hk Hr).
      * eapply Hpeers; [done|]. by right.
      * eapply Hpeers; [done|]. by right.
    + rewrite (step_tasks_ne _ _ _ _ Hstep Hne) in Ht'.
      destruct (Hpeers _ _ _ _ _ Ht') as [Hp Hj]. split; [done|].
      intros c Hc. by apply Hkeep, Hj.
  - intros A B m d Hin. rewrite Hs' in Hin. simpl in Hin.
    apply elem_of_app in Hin as [Hin|Hin].
    + destruct (Hlog _ _ _ _ Hin) as (? & ? & ?). split_and!; auto.
    + destruct (handler_step_new_send _ _ _ _ _ _ _ _ _ _ _ Hh Hin)
        as (-> & R & todo & Ht).
      destruct (Hpeers _ _ _ _ _ Ht) as [Hp Hj]. split_and!; [done| |].
      * apply Hkeep. by rewrite (lifecycle_relaying _ _ _ _ Hlc Ht).
      * apply Hkeep, Hj. left.
Qed.

Lemma callees_have_joined_reachable s :
  reachable s → callees_have_joined s.
Proof.
  intros Hr.
  cut (lifecycle s ∧ membership_exact s ∧ callees_have_joined s);
    [by intros (_ & _ & ?)|].
  revert s Hr. apply reachable_invariant.
  - split_and!; [apply lifecycle_init | apply membership_exact_init |].
    split.
    + intros A R m p todo Ht. simpl in Ht. by rewrite lookup_empty in Ht.
    + intros A B m d Hin. simpl in Hin. by apply elem_of_nil in Hin.
  - intros ev s s' (Hlc & Hmem & Hc) Hstep. split_and!.
    + by eapply lifecycle_step.
    + by eapply membership_exact_step.
    + by eapply callees_have_joined_step.
Qed.

(** X5.  In every state the process can reach, every [send_text] call a
    handler has made was made on a connection other than its own, and both
    the caller and the callee had joined, the same room: nothing is ever sent
    to a connection before its [accept] has returned and its join has run. *)
Theorem calls_go_to_other_joined_connections s A B m d :
  reachable s →
  ObsSend A B m d ∈ log s →
  A ≠ B ∧
  ∃ R, room_of A s = Some R ∧ room_of B s = Some R ∧
       joins_of A (log s) = [R] ∧ joins_of B (log s) = [R].
Proof.
  intros Hreach Hin.
  destruct (callees_have_joined_reachable s Hreach) as [_ Hlog].
  destruct (Hlog _ _ _ _ Hin) as (Hne & HjA & HjB).
  destruct (isolation_reachable s Hreach) as (_ & _ & Hroom).
  destruct (Hroom _ _ _ _ Hin) as (R & HA & HB).
  pose proof (lifecycle_reachable s Hreach) as Hlc.
  split; [done|]. exists R. split_and!; [done..| |]; by apply lifecycle_joins.
Qed.

Lemma call_in_lobby :
  1 ≠ 2 ∧
  ∃ R, room_of 1 lobby_after_offer = Some R ∧
       room_of 2 lobby_after_offer = Some R ∧
       joins_of 1 (log lobby_after_offer) = [R] ∧
       joins_of 2 (log lobby_after_offer) = [R].
Proof.
  apply (calls_go_to_other_joined_connections lobby_after_offer 1 2 "offer" true
           ltac:(ran)).
  vm_compute. do 2 right. left.
Defined.

(** X14.  In every state the process can reach, a connection has either no
    join and no cleanup in the log, or exactly one join, for the room its
    handler resolved, and then no cleanup yet or exactly one, for that room:
    a handler never joins twice, never joins another room, and never runs its
    cleanup without having joined. *)
Theorem handler_joins_once_and_leaves_once s c :
  reachable s →
  (joins_of c (log s) = [] ∧ leaves_of c (log s) = []) ∨
  ∃ R, room_of c s = Some R ∧ joins_of c (log s) = [R] ∧
       (leaves_of c (log s) = [] ∨ leaves_of c (log s) = [R]).
Proof.
  intros Hlc%lifecycle_reachable. specialize (Hlc c). unfold room_of.
  destruct (tasks s !! c) as [[R k]|]; simpl in *; [|by left].
  destruct k; naive_solver.
Qed.

Lemma one_join_one_cleanup_after_hang_up :
  (joins_of 1 (log hung_up) = [] ∧ leaves_of 1 (log hung_up) = []) ∨
  ∃ R, room_of 1 hung_up = Some R ∧ joins_of 1 (log hung_up) = [R] ∧
       (leaves_of 1 (log hung_up) = [] ∨ leaves_of 1 (log hung_up) = [R]).
Proof.
  apply (handler_joins_once_and_leaves_once hung_up 1). ran.
Defined.

(** ** A pass, whether or not it comes to its end *)

(** A handler that has ended makes no further call. *)
Lemma step_finished_silent ev s s' c R k :
  step ev s = Some s' → tasks s !! c = Some (Task R k) → finished k = true →
  ∃ new, log s' = log s ++ new ∧
    sends_of c new = [] ∧ joins_of c new = [] ∧ leaves_of c new = [].
Proof.
  intros Hstep Ht Hk.
  pose proof Hstep as (t' & rooms' & new & Hh & ->)%step_handler_step.
  assert (c ≠ event_conn ev) as Hne.
  { intros ->. rewrite Ht in Hh. apply handler_step_finished in Hh. congruence. }
  exists new. split; [done|].
  destruct (handler_step_lifecycle_ne _ _ _ _ _ _ _ c Hh Hne) as [-> ->].
  by rewrite (handler_step_sends_ne _ _ _ _ _ _ _ c Hh Hne).
Qed.

Lemma run_finished_silent evs : ∀ s s' c R k,
  run evs s = Some s' → tasks s !! c = Some (Task R k) → finished k = true →
  ∃ new, log s' = log s ++ new ∧
    sends_of c new = [] ∧ joins_of c new = [] ∧ leaves_of c new = [].
Proof.
  induction evs as [|ev evs IH]; intros s s' c R k Hrun Ht Hk; simpl in Hrun.
  - simplify_eq. exists []. by rewrite app_nil_r.
  - destruct (step ev s) as [s1|] eqn:Hs; [|done].
    destruct (step_finished_silent _ _ _ _ _ _ Hs Ht Hk)
      as (new1 & Hl1 & Hs1 & Hj1 & Hv1).
    destruct (IH s1 s' c R k Hrun (step_finished _ _ _ _ _ _ Hs Ht Hk) Hk)
      as (new2 & Hl2 & Hs2 & Hj2 & Hv2).
    exists (new1 ++ new2). rewrite Hl2, Hl1, app_assoc.
    rewrite sends_of_app, joins_of_app, leaves_of_app.
    by rewrite Hs1, Hs2, Hj1, Hj2, Hv1, Hv2.
Qed.

(** One transition seen from a handler inside its loop, with what it logs
    when a send raises an exception it does not catch. *)
Lemma pass_step_calls A ev s s' R k :
  step ev s = Some s' →
  tasks s !! A = Some (Task R k) → relaying k = true →
  (∀ r, ev ≠ Received A r) →
  ∃ k' new, tasks s' !! A = Some (Task R k') ∧ log s' = log s ++ new ∧
    ((relaying k' = true ∧ leaves_of A new = [] ∧
      (sends_of A new).*1 ++ pending A k' = pending A k)
     ∨ (∃ e m p todo,
          k = AwaitSend m p todo ∧ ev = Sent A (Raise e) ∧
          is_Exception e = false ∧ k' = Raised e ∧
          sends_of A new = [(p, m, false)] ∧ leaves_of A new = [R])).
Proof.
  intros Hstep Ht Hk Hev.
  pose proof Hstep as (t' & rooms' & new & Hh & ->)%step_handler_step.
  destruct (decide (event_conn ev = A)) as [HA|Hne].
  - rewrite HA, Ht in Hh.
    inversion Hh; subst; simpl in *; try done;
      try (by edestruct Hev);
      eexists _, _; rewrite lookup_insert_eq; (split_and!; [done..|]).
    + left. unfold sends_of, leaves_of. simpl.
      rewrite decide_True by done. simpl.
      split_and!; [apply relaying_for_peers | done |].
      by rewrite pending_for_peers.
    + left. unfold sends_of, leaves_of. simpl.
      rewrite decide_True by done. simpl.
      split_and!; [apply relaying_for_peers | done |].
      by rewrite pending_for_peers.
    + right. eexists _, _, _, _. unfold sends_of, leaves_of. simpl.
      rewrite !decide_True by done. done.
  - exists k, new. simpl. rewrite lookup_insert_ne by done.
    split_and!; [done..|]. left.
    rewrite (handler_step_sends_ne _ _ _ _ _ _ _ A Hh) by done.
    destruct (handler_step_lifecycle_ne _ _ _ _ _ _ _ A Hh) as [_ ->]; done.
Qed.

(** Along any schedule that hands the handler no new message, the calls it
    makes are taken, in order, from the front of those it had to make. *)
Lemma pass_run_prefix A evs : ∀ s s' R k,
  run evs s = Some s' →
  tasks s !! A = Some (Task R k) → relaying k = true →
  (∀ r, Received A r ∉ evs) →
  ∃ new, log s' = log s ++ new ∧ (sends_of A new).*1 `prefix_of` pending A k.
Proof.
  induction evs as [|ev evs IH]; intros s s' R k Hrun Ht Hk Hrecv;
    simpl in Hrun.
  - simplify_eq. exists []. rewrite app_nil_r. split; [done|].
    apply prefix_nil.
  - destruct (step ev s) as [s1|] eqn:Hs; [|done].
    destruct (pass_step_calls A ev s s1 R k) as (k1 & new1 & Ht1 & Hl1 & Hcase);
      [done..| |].
    { intros r ->. apply (Hrecv r). left. }
    destruct Hcase as [(Hk1 & _ & Hp1)
                      |(e & m & p & todo & -> & -> & He & -> & Hs1 & _)].
    + destruct (IH s1 s' R k1) as (new2 & Hl2 & Hpre); [done..| |].
      { intros r Hin. apply (Hrecv r). by right. }
      exists (new1 ++ new2). rewrite Hl2, Hl1, app_assoc. split; [done|].
      rewrite sends_of_app, fmap_app, <- Hp1. by apply prefix_app.
    + destruct (run_finished_silent evs s1 s' A R (Raised e) Hrun Ht1 eq_refl)
        as (new2 & Hl2 & Hs2 & _).
      exists (new1 ++ new2). rewrite Hl2, Hl1, app_assoc. split; [done|].
      rewrite sends_of_app, Hs1, Hs2. simpl. by apply prefix_cons, prefix_nil.
Qed.

Lemma on_peer_nil C (calls : list (nat * string * bool)) :
  (∀ c, c ∈ calls → c.1.1 ≠ C) → on_peer C calls = [].
Proof.
  induction calls as [|c calls IH]; intros Hall; [done|].
  rewrite on_peer_cons, decide_False by (apply Hall; left).
  apply IH. intros x Hx. apply Hall. by right.
Qed.

(** X6.  The peers of a pass are fixed when the message is read: along every
    schedule that follows, complete or not, the calls the handler makes are
    an initial part of one call per member of the snapshot other than itself,
    in the order of the snapshot.  A connection that was not a member of the
    room when the message was read is not called by this pass, even if it
    joins the room while the pass is under way. *)
Theorem pass_calls_only_the_snapshot s A R m evs s' :
  tasks s !! A = Some (Task R AwaitReceive) →
  (∀ r, Received A r ∉ evs) →
  run (Received A (Ok m) :: evs) s = Some s' →
  ∃ new, log s' = log s ++ new ∧
    (sends_of A new).*1 `prefix_of` fan_out A m (snapshot R (rooms s)) ∧
    ∀ C, C ∉ members R (rooms s) → calls_to A C new = [].
Proof.
  intros Ht Hrecv Hrun.
  destruct (run_received _ _ _ _ _ _ Ht Hrun) as [_ Hrun1].
  destruct (pass_run_prefix A evs _ s' R
              (for_peers A m (snapshot R (rooms s))) Hrun1)
    as (new & Hl & Hpre).
  { simpl. by rewrite lookup_insert_eq. }
  { apply relaying_for_peers. }
  { done. }
  rewrite pending_for_peers in Hpre. simpl in Hl. rewrite app_nil_r in Hl.
  exists new. split_and!; [done..|].
  intros C HC. apply on_peer_nil. intros c Hc HcC.
  destruct Hpre as [rest Hrest].
  assert (c.1 ∈ fan_out A m (snapshot R (rooms s))) as Hin.
  { rewrite Hrest. apply elem_of_app. left.
    apply list_elem_of_fmap. by exists c. }
  unfold fan_out in Hin.
  apply list_elem_of_fmap in Hin as (q & Hq & [_ Hsnap]%list_elem_of_filter).
  rewrite Hq in HcC. simpl in HcC. subst q.
  apply HC. by apply elem_of_snapshot.
Qed.

Lemma late_joiner_is_not_called :
  3 ∈ members "default" (rooms lobby_late_join) ∧
  ∃ new, log lobby_late_join = log lobby ++ new ∧
    (sends_of 1 new).*1
      `prefix_of` fan_out 1 "offer" (snapshot "default" (rooms lobby)) ∧
    ∀ C, C ∉ members "default" (rooms lobby) → calls_to 1 C new = [].
Proof.
  split; [vm_compute; reflexivity|].
  apply (pass_calls_only_the_snapshot lobby 1 "default" "offer"
           [Connect 3 []; Accepted 3 (Ok ()); Sent 1 (Ok ())]).
  - reflexivity.
  - absent.
  - vm_compute. reflexivity.
Defined.

Lemma step_send_uncaught ws room msg peer todo e s rooms' :
  tasks s !! ws = Some (Task room (AwaitSend msg peer todo)) →
  is_Exception e = false →
  leave room ws (rooms s) = Ok rooms' →
  step (Sent ws (Raise e)) s =
  Some (resume ws (Task room (Raised e)) rooms'
          [ObsSend ws peer msg false; ObsLeave ws room] s).
Proof.
  intros Ht He Hl. apply handler_step_step. rewrite Ht. by constructor.
Qed.

(** X7.  When a [send_text] raises an exception that is not an [Exception]
    (the handler's task is cancelled, say), [except Exception] does not catch
    it: the cleanup runs, the handler ends by raising that exception, its
    connection is a member of no room from then on, and the peers left in
    the snapshot are never called; the log gains that one failed call and the
    cleanup, and no other call of this handler. *)
Theorem uncaught_send_exception_ends_the_pass s A R m p todo e evs s' :
  reachable s →
  tasks s !! A = Some (Task R (AwaitSend m p todo)) →
  is_Exception e = false →
  run (Sent A (Raise e) :: evs) s = Some s' →
  pc_of A s' = Some (Raised e) ∧
  (∀ r, A ∉ members r (rooms s')) ∧
  ∃ new, log s' = log s ++ new ∧
    sends_of A new = [(p, m, false)] ∧ leaves_of A new = [R].
Proof.
  intros Hreach Ht He Hrun.
  pose proof (membership_exact_reachable s' (reachable_run _ _ _ Hreach Hrun))
    as Hmem.
  destruct (leave_returns R A (rooms s)) as [rooms1 Hleave].
  cbn [run] in Hrun.
  rewrite (step_send_uncaught _ _ _ _ _ _ _ _ Ht He Hleave) in Hrun.
  set (s1 := resume A (Task R (Raised e)) rooms1
               [ObsSend A p m false; ObsLeave A R] s) in *.
  assert (tasks s1 !! A = Some (Task R (Raised e))) as Ht1
    by (simpl; apply lookup_insert_eq).
  destruct (run_finished_silent evs s1 s' A R (Raised e) Hrun Ht1 eq_refl)
    as (new2 & Hl2 & Hs2 & _ & Hv2).
  pose proof (run_finished _ _ _ _ _ _ Hrun Ht1 eq_refl) as Ht'.
  split_and!.
  - unfold pc_of. by rewrite Ht'.
  - intros r (k & Hk & Hr)%Hmem. rewrite Ht' in Hk. by simplify_eq.
  - exists ([ObsSend A p m false; ObsLeave A R] ++ new2).
    rewrite Hl2. simpl log. rewrite <- app_assoc. split; [done|].
    rewrite sends_of_app, leaves_of_app, Hs2, Hv2.
    unfold sends_of, leaves_of. simpl. by rewrite !decide_True by done.
Qed.

Lemma cancelled_send_in_trio :
  pc_of 1 trio_cancelled = Some (Raised CancelledError) ∧
  (∀ r, 1 ∉ members r (rooms trio_cancelled)) ∧
  ∃ new, log trio_cancelled = log trio_offering ++ new ∧
    sends_of 1 new = [(2, "offer", false)] ∧ leaves_of 1 new = ["default"].
Proof.
  apply (uncaught_send_exception_ends_the_pass trio_offering 1 "default"
           "offer" 2 [3; 1] CancelledError
           [Received 2 (Ok "hi"); Sent 2 (Ok ())]).
  - ran.
  - reflexivity.
  - reflexivity.
  - vm_compute. reflexivity.
Defined.

(** X8.  A peer whose send failed is not taken out of the room ("ignore for
    now"): whatever the outcomes of the sends of a pass, returns or
    [Exception]s, after the pass the registry is as it was and the peer is
    still a member; and the pass for the next message the handler reads calls
    [send_text] on that peer again, exactly once, whatever the outcomes of
    its sends. *)
Theorem failing_peer_is_not_evicted s A B R m (rs : list (result unit)) :
  tasks s !! A = Some (Task R AwaitReceive) →
  A ≠ B →
  B ∈ members R (rooms s) →
  length rs = length (fan_out A m (snapshot R (rooms s))) →
  Forall (λ r, absorbed r = true) rs →
  ∃ s',
    run (Received A (Ok m) :: (Sent A <$> rs)) s = Some s' ∧
    rooms s' = rooms s ∧
    B ∈ members R (rooms s') ∧
    ∀ m2 (rs2 : list (result unit)),
      length rs2 = length (fan_out A m2 (snapshot R (rooms s'))) →
      Forall (λ r, absorbed r = true) rs2 →
      ∃ s'' new d,
        run (Received A (Ok m2) :: (Sent A <$> rs2)) s' = Some s'' ∧
        log s'' = log s' ++ new ∧
        calls_to A B new = [(m2, d)].
Proof.
  intros Ht HAB HB Hlen Hrs.
  destruct (pass_terminates s A R m rs Ht Hlen Hrs) as (s' & Hrun & Ht' & Hr').
  exists s'. rewrite Hr'. split_and!; [done..|].
  intros m2 rs2 Hlen2 Hrs2. rewrite <- Hr' in Hlen2.
  destruct (pass_terminates s' A R m2 rs2 Ht' Hlen2 Hrs2)
    as (s'' & Hrun2 & Ht'' & _).
  assert (pc_of A s'' = Some AwaitReceive) as Hend
    by (unfold pc_of; by rewrite Ht'').
  destruct (pass_complete s' A R m2 _ s'' Ht' (not_elem_of_fmap_Sent A _)
              Hrun2 Hend) as (new & Hl & Hp & _).
  destruct (fan_out_calls A B m2 _ new Hp (NoDup_snapshot _ _) HAB)
    as (d & _ & HcB & _).
  { apply elem_of_snapshot. by rewrite Hr'. }
  by exists s'', new, d.
Qed.

Lemma peer_is_called_again_after_failed_offer :
  ∃ s',
    run (Received 1 (Ok "offer") :: (Sent 1 <$> [Raise RuntimeError])) lobby
      = Some s' ∧
    rooms s' = rooms lobby ∧
    2 ∈ members "default" (rooms s') ∧
    ∀ m2 (rs2 : list (result unit)),
      length rs2 = length (fan_out 1 m2 (snapshot "default" (rooms s'))) →
      Forall (λ r, absorbed r = true) rs2 →
      ∃ s'' new d,
        run (Received 1 (Ok m2) :: (Sent 1 <$> rs2)) s' = Some s'' ∧
        log s'' = log s' ++ new ∧
        calls_to 1 2 new = [(m2, d)].
Proof.
  apply (failing_peer_is_not_evicted lobby 1 2 "default" "offer"
           [Raise RuntimeError]).
  - reflexivity.
  - lia.
  - vm_compute. reflexivity.
  - vm_compute. reflexivity.
  - repeat constructor.
Defined.

(** X9.  [await ws.accept()] is outside the [try]: when it raises, the
    handler ends by raising that exception without having touched the
    registry and without running the cleanup.  From then on the connection
    has no join and no cleanup in the log, is a member of no room, and no
    handler ever calls [send_text] on it. *)
Theorem failed_accept_never_joins s c R e evs s' :
  reachable s →
  tasks s !! c = Some (Task R AwaitAccept) →
  run (Accepted c (Raise e) :: evs) s = Some s' →
  step (Accepted c (Raise e)) s
    = Some (resume c (Task R (Raised e)) (rooms s) [] s) ∧
  pc_of c s' = Some (Raised e) ∧
  joins_of c (log s') = [] ∧
  leaves_of c (log s') = [] ∧
  (∀ r, c ∉ members r (rooms s')) ∧
  (∀ A m d, ObsSend A c m d ∉ log s').
Proof.
  intros Hreach Ht Hrun.
  pose proof (reachable_run _ _ _ Hreach Hrun) as Hreach'.
  assert (step (Accepted c (Raise e)) s
            = Some (resume c (Task R (Raised e)) (rooms s) [] s)) as Hstep.
  { apply handler_step_step. rewrite Ht. constructor. }
  cbn [run] in Hrun. rewrite Hstep in Hrun.
  set (s1 := resume c (Task R (Raised e)) (rooms s) [] s) in *.
  assert (tasks s1 !! c = Some (Task R (Raised e))) as Ht1
    by (simpl; apply lookup_insert_eq).
  destruct (run_finished_silent evs s1 s' c R (Raised e) Hrun Ht1 eq_refl)
    as (new & Hl & _ & Hj & Hv).
  pose proof (run_finished _ _ _ _ _ _ Hrun Ht1 eq_refl) as Ht'.
  pose proof (lifecycle_reachable s Hreach c) as Hlc. rewrite Ht in Hlc.
  destruct Hlc as [Hj0 Hv0].
  assert (joins_of c (log s') = []) as Hjoins.
  { rewrite Hl. simpl log. by rewrite app_nil_r, joins_of_app, Hj0, Hj. }
  split_and!; [done| | done | | |].
  - unfold pc_of. by rewrite Ht'.
  - rewrite Hl. simpl log. by rewrite app_nil_r, leaves_of_app, Hv0, Hv.
  - intros r (k & Hk & Hr)%(membership_exact_reachable s' Hreach').
    rewrite Ht' in Hk. by simplify_eq.
  - intros A m d Hin.
    destruct (callees_have_joined_reachable s' Hreach') as [_ Hlog].
    by destruct (Hlog _ _ _ _ Hin) as (_ & _ & ?).
Qed.

Lemma turned_away_is_never_called :
  step (Accepted 1 (Raise RuntimeError)) knocking
    = Some (resume 1 (Task "default" (Raised RuntimeError))
              (rooms knocking) [] knocking) ∧
  pc_of 1 turned_away = Some (Raised RuntimeError) ∧
  joins_of 1 (log turned_away) = [] ∧
  leaves_of 1 (log turned_away) = [] ∧
  (∀ r, 1 ∉ members r (rooms turned_away)) ∧
  (∀ A m d, ObsSend A 1 m d ∉ log turned_away).
Proof.
  apply (failed_accept_never_joins knocking 1 "default" RuntimeError
           [Connect 2 []; Accepted 2 (Ok ()); Received 2 (Ok "hi")]).
  - ran.
  - reflexivity.
  - vm_compute. reflexivity.
Defined.

Lemma length_filter_ne (a : nat) (l : list nat) :
  NoDup l → a ∈ l → length (filter (λ p, p ≠ a) l) + 1 = length l.
Proof.
  induction l as [|x l IH]; intros Hnd Hin; [by apply elem_of_nil in Hin|].
  apply NoDup_cons in Hnd as [Hx Hnd].
  destruct (decide (x = a)) as [->|Hne].
  - rewrite filter_cons_False by (intros ?; done). simpl.
    assert (filter (λ p, p ≠ a) l = l) as ->; [|lia].
    clear IH Hin Hnd. induction l as [|y l IHl]; [done|].
    rewrite filter_cons_True by set_solver. f_equal. apply IHl. set_solver.
  - rewrite filter_cons_True by done. simpl.
    apply elem_of_cons in Hin as [->|Hin]; [done|]. rewrite <- (IH Hnd Hin). lia.
Qed.

Lemma length_snapshot room (rooms : gmap string (gset nat)) :
  length (snapshot room rooms) = size (members room rooms).
Proof.
  unfold snapshot, members. destruct (rooms !! room); [done|].
  change (0 = size (∅ : gset nat)). by rewrite size_empty.
Qed.

(** X10.  In a state the process can reach, a pass that comes to its end has
    made exactly one call less than the room has members at the time the
    message is read: one per member, the sender excepted. *)
Theorem pass_makes_one_call_per_other_member s A R m evs s' :
  reachable s →
  tasks s !! A = Some (Task R AwaitReceive) →
  (∀ r, Received A r ∉ evs) →
  run (Received A (Ok m) :: evs) s = Some s' →
  pc_of A s' = Some AwaitReceive →
  ∃ new, log s' = log s ++ new ∧
    length (sends_of A new) + 1 = size (members R (rooms s)).
Proof.
  intros Hreach Ht Hrecv Hrun Hend.
  destruct (pass_complete _ _ _ _ _ _ Ht Hrecv Hrun Hend) as (new & Hl & Hp & _).
  exists new. split; [done|].
  assert (A ∈ snapshot R (rooms s)) as HA.
  { apply elem_of_snapshot, (membership_exact_reachable s Hreach). eauto. }
  rewrite <- length_snapshot,
    <- (length_filter_ne A _ (NoDup_snapshot R (rooms s)) HA).
  f_equal. rewrite <- (length_fmap fst), Hp. unfold fan_out.
  by rewrite length_fmap.
Qed.

Lemma two_calls_in_trio :
  ∃ new, log trio_after_offer = log trio ++ new ∧
    length (sends_of 1 new) + 1 = size (members "default" (rooms trio)).
Proof.
  apply (pass_makes_one_call_per_other_member trio 1 "default" "offer"
           [Received 2 (Raise WebSocketDisconnect);
            Sent 1 (Raise RuntimeError); Sent 1 (Ok ())]).
  - ran.
  - reflexivity.
  - absent.
  - vm_compute. reflexivity.
  - vm_compute. reflexivity.
Defined.

(** ** Keys of the registry *)

Lemma rooms_joined_app l1 l2 :
  rooms_joined (l1 ++ l2) = rooms_joined l1 ∪ rooms_joined l2.
Proof. unfold rooms_joined. by rewrite omap_app, list_to_set_app_L. Qed.

Lemma handler_step_rooms_joined ws ev point rooms t' rooms' new :
  handler_step ws ev point rooms t' rooms' new →
  dom rooms' = dom rooms ∪ rooms_joined new.
Proof.
  destruct 1; unfold rooms_joined; simpl;
    repeat match goal with
      | Hj : join _ _ _ = _ |- _ => apply join_dom in Hj as ->
      | Hl : leave _ _ _ = _ |- _ => apply leave_dom in Hl as ->
      end;
    set_solver.
Qed.

(** X13.  In every state the process can reach, the keys of [rooms] are
    exactly the room names some handler has joined since the process
    started: joining is the only way a key appears, and none disappears. *)
Theorem registry_keys_are_the_rooms_joined s :
  reachable s → dom (rooms s) = rooms_joined (log s).
Proof.
  revert s. apply reachable_invariant.
  - simpl. unfold rooms_joined. simpl. by rewrite dom_empty_L.
  - intros ev s s' Inv (t' & rooms' & new & Hh & ->)%step_handler_step. simpl.
    rewrite rooms_joined_app, <- Inv. by eapply handler_step_rooms_joined.
Qed.

Lemma keys_after_hang_up :
  dom (rooms hung_up) = rooms_joined (log hung_up).
Proof. apply (registry_keys_are_the_rooms_joined hung_up). ran. Defined.

(** ** An explicit room *)

Lemma query_get_same key R q :
  (∀ v, (key, v) ∈ q → v = R) → query_get key R q = R.
Proof.
  induction q as [|[k v] q IH]; intros Hall; simpl; [done|].
  case_decide as Hk.
  - subst k. rewrite (Hall v) by left. apply IH. intros w Hw. apply Hall. by right.
  - apply IH. intros w Hw. apply Hall. by right.
Qed.

Lemma query_get_present key default R q :
  key ∈ q.*1 → (∀ v, (key, v) ∈ q → v = R) → query_get key default q = R.
Proof.
  revert default. induction q as [|[k v] q IH]; intros default Hin Hall;
    simpl in *; [by apply elem_of_nil in Hin|].
  case_decide as Hk.
  - subst k. rewrite (Hall v) by left.
    apply query_get_same. intros w Hw. apply Hall. by right.
  - apply elem_of_cons in Hin as [?|Hin]; [done|].
    apply IH; [done|]. intros w Hw. apply Hall. by right.
Qed.

(** X12.  A connection whose query string gives the key [room] one value
    joins the room of that name, whatever the name (the empty string
    included): once accepted, its handler waits for a message in that room,
    the room has gained the connection and nothing else, and every other room
    is as it was. *)
Theorem explicit_room_is_joined s c q R :
  tasks s !! c = None →
  "room" ∈ q.*1 →
  (∀ v, ("room", v) ∈ q → v = R) →
  resolve_room q = R ∧
  ∃ s',
    run [Connect c q; Accepted c (Ok ())] s = Some s' ∧
    tasks s' !! c = Some (Task R AwaitReceive) ∧
    members R (rooms s') = members R (rooms s) ∪ {[c]} ∧
    (∀ r, r ≠ R → rooms s' !! r = rooms s !! r).
Proof.
  intros Ht Hin Hall.
  assert (resolve_room q = R) as HR by by apply query_get_present.
  split; [done|]. cbn [run].
  rewrite (step_connect _ q _ Ht), HR.
  erewrite step_accepted by (simpl; apply lookup_insert_eq).
  eexists. split; [done|]. cbn [resume tasks rooms]. split_and!.
  - apply lookup_insert_eq.
  - apply members_insert.
  - intros r Hne. by apply lookup_insert_ne.
Qed.

Lemma room_alpha_is_joined :
  resolve_room [("room", "alpha")] = "alpha" ∧
  ∃ s',
    run [Connect 1 [("room", "alpha")]; Accepted 1 (Ok ())] init = Some s' ∧
    tasks s' !! 1 = Some (Task "alpha" AwaitReceive) ∧
    members "alpha" (rooms s') = members "alpha" (rooms init) ∪ {[1]} ∧
    (∀ r, r ≠ "alpha" → rooms s' !! r = rooms init !! r).
Proof.
  apply (explicit_room_is_joined init 1 [("room", "alpha")] "alpha").
  - reflexivity.
  - simpl. left.
  - intros v Hv. apply list_elem_of_singleton in Hv. by simplify_eq.
Defined.

(** ** Messages are relayed in the order they were read *)

Lemma calls_to_app A B l1 l2 :
  calls_to A B (l1 ++ l2) = calls_to A B l1 ++ calls_to A B l2.
Proof. unfold calls_to, on_peer. by rewrite sends_of_app, omap_app. Qed.

Lemma received_by_app A evs1 evs2 :
  received_by A (evs1 ++ evs2) = received_by A evs1 ++ received_by A evs2.
Proof. apply omap_app. Qed.

Lemma received_by_other A ev :
  event_conn ev ≠ A → received_by A [ev] = [].
Proof.
  intros Hne. unfold received_by. destruct ev as [| |c [m|e]|]; simpl; try done.
  by rewrite decide_False.
Qed.

Lemma for_peers_NoDup ws msg l m p todo :
  for_peers ws msg l = AwaitSend m p todo → NoDup l → NoDup (p :: todo).
Proof.
  induction l as [|q l IH]; simpl; [done|]. intros H Hnd.
  apply NoDup_cons in Hnd as [Hq Hnd]. case_decide.
  - by apply IH.
  - simplify_eq. by apply NoDup_cons.
Qed.

Lemma delivered_sublist_calls A B l :
  delivered_to A B l `sublist_of` (calls_to A B l).*1.
Proof.
  unfold delivered_to. induction (calls_to A B l) as [|[m []] calls IH]; simpl.
  - done.
  - by apply sublist_skip.
  - by apply sublist_cons.
Qed.

(** The calls on [B] a transition of the handler of [ws] logs. *)
Lemma handler_step_calls_to ws ev point rooms t' rooms' new B :
  handler_step ws ev point rooms t' rooms' new →
  (calls_to ws B new).*1 =
    match point with
    | Some (Task _ (AwaitSend m p _)) => if decide (p = B) then [m] else []
    | _ => []
    end.
Proof.
  destruct 1; unfold calls_to, on_peer, sends_of; simpl; try done;
    rewrite decide_True by done; simpl; by case_decide.
Qed.

Lemma handler_step_received_by ws ev point rooms t' rooms' new :
  handler_step ws ev point rooms t' rooms' new →
  received_by ws [ev] =
    match ev with
    | Received _ (Ok m) => [m]
    | _ => []
    end.
Proof.
  destruct 1; unfold received_by; simpl; try done. by rewrite decide_True.
Qed.

(** Logging the call the handler was suspended in keeps the order. *)
Lemma call_keeps_order (B peer : nat) todo (sent before : list string) msg :
  NoDup (peer :: todo) →
  sent `sublist_of`
    (if decide (B ∈ peer :: todo) then before else before ++ [msg]) →
  sent ++ (if decide (peer = B) then [msg] else [])
    `sublist_of` before ++ [msg] ∧
  (B ∈ todo →
   sent ++ (if decide (peer = B) then [msg] else []) `sublist_of` before).
Proof.
  intros [Hp Hnd]%NoDup_cons Hsub.
  destruct (decide (peer = B)) as [->|Hne].
  - rewrite decide_True in Hsub by left. split; [by apply sublist_app|done].
  - rewrite app_nil_r. case_decide as HB.
    + split; [by apply sublist_inserts_r | done].
    + split; [done|]. intros Hin. destruct HB. by right.
Qed.

Lemma in_order_for_peers ws B msg todo0 peer todo sent before :
  NoDup (peer :: todo0) →
  (∀ c, c ∈ todo → c ∈ todo0) → NoDup todo →
  sent `sublist_of`
    (if decide (B ∈ peer :: todo0) then before else before ++ [msg]) →
  match for_peers ws msg todo with
  | AwaitSend m p todo' =>
      ∃ before', before ++ [msg] = before' ++ [m] ∧ NoDup (p :: todo') ∧
        sent ++ (if decide (peer = B) then [msg] else [])
          `sublist_of` (if decide (B ∈ p :: todo') then before'
                        else before ++ [msg])
  | _ =>
      sent ++ (if decide (peer = B) then [msg] else [])
        `sublist_of` before ++ [msg]
  end.
Proof.
  intros Hnd0 Hsubset Hnd Hsub.
  destruct (call_keeps_order B peer todo0 sent before msg Hnd0 Hsub)
    as [Hall Hbefore].
  destruct (for_peers ws msg todo) as [| |m p todo'| |] eqn:Hfp; try done.
  destruct (for_peers_AwaitSend _ _ _ _ _ _ Hfp) as (-> & _ & Hin).
  exists before. split_and!; [done | by eapply for_peers_NoDup |].
  destruct (decide (B ∈ p :: todo')) as [HB|HB]; [|done].
  apply Hbefore, Hsubset, Hin, HB.
Qed.

Lemma in_order_handler_step ws B evs ev s t' rooms' new :
  in_order ws B evs s →
  handler_step ws ev (tasks s !! ws) (rooms s) t' rooms' new →
  in_order ws B (evs ++ [ev]) (resume ws t' rooms' new s).
Proof.
  intros Inv Hh. unfold in_order, pc_of in *. cbn [resume tasks log].
  rewrite lookup_insert_eq, calls_to_app, fmap_app, received_by_app.
  rewrite (handler_step_calls_to _ _ _ _ _ _ _ B Hh).
  rewrite (handler_step_received_by _ _ _ _ _ _ _ Hh).
  destruct (tasks s !! ws) as [[r0 k0]|] eqn:Ht; simpl in Inv;
    inversion Hh; subst; clear Hh; simpl; rewrite ?app_nil_r; try done.
  all: try (by destruct (is_WebSocketDisconnect _)).
  - destruct (for_peers ws msg (snapshot r0 (rooms s)))
      as [| |m p todo| |] eqn:Hfp; try (by apply sublist_inserts_r).
    destruct (for_peers_AwaitSend _ _ _ _ _ _ Hfp) as (-> & _ & _).
    exists (received_by ws evs). split_and!; [done| |].
    + eapply for_peers_NoDup; [done | apply NoDup_snapshot].
    + destruct (decide (B ∈ p :: todo)); [done | by apply sublist_inserts_r].
  - destruct Inv as (before & -> & Hnd & Hsub).
    apply (in_order_for_peers ws B msg todo peer todo _ before Hnd);
      [done | by apply NoDup_cons in Hnd as [_ ?] | done].
  - destruct Inv as (before & -> & Hnd & Hsub).
    apply (in_order_for_peers ws B msg todo peer todo _ before Hnd);
      [done | by apply NoDup_cons in Hnd as [_ ?] | done].
  - destruct Inv as (before & -> & Hnd & Hsub).
    by apply (call_keeps_order B peer todo _ before msg Hnd).
Qed.

Lemma in_order_step A B evs ev s s' :
  in_order A B evs s → step ev s = Some s' → in_order A B (evs ++ [ev]) s'.
Proof.
  intros Inv Hstep.
  pose proof Hstep as (t' & rooms' & new & Hh & ->)%step_handler_step.
  destruct (decide (event_conn ev = A)) as [<-|Hne].
  - apply in_order_handler_step; [exact Inv | exact Hh].
  - assert (calls_to A B new = []) as Hc.
    { unfold calls_to.
      by rewrite (handler_step_sends_ne _ _ _ _ _ _ _ A Hh) by done. }
    unfold in_order, pc_of in *. cbn [resume tasks log].
    rewrite lookup_insert_ne by done.
    rewrite calls_to_app, Hc, received_by_app, (received_by_other _ _ Hne).
    by rewrite !app_nil_r.
Qed.

Lemma in_order_run A B evs : ∀ s,
  run evs init = Some s → in_order A B evs s.
Proof.
  induction evs as [|ev evs IH] using rev_ind; intros s Hrun.
  - simpl in Hrun. simplify_eq. unfold in_order, pc_of. simpl.
    rewrite lookup_empty. simpl. apply sublist_nil_l.
  - rewrite run_app in Hrun.
    destruct (run evs init) as [s0|] eqn:H0; [|done]. simpl in Hrun.
    destruct (step ev s0) as [s1|] eqn:Hs; [|done]. simplify_eq.
    apply in_order_step with s0; [by apply IH | done].
Qed.

(** X11.  Along every schedule from the start of the process, the payloads a
    handler has called [send_text] on one peer with, and so the payloads that
    peer was handed by it, are payloads the handler read, in the order it
    read them, each used at most as often as it was read: nothing is made up,
    repeated or reordered on the way. *)
Theorem relayed_in_the_order_read evs s A B :
  run evs init = Some s →
  (calls_to A B (log s)).*1 `sublist_of` received_by A evs ∧
  delivered_to A B (log s) `sublist_of` received_by A evs.
Proof.
  intros Hrun.
  assert ((calls_to A B (log s)).*1 `sublist_of` received_by A evs) as Hcalls.
  { pose proof (in_order_run A B evs s Hrun) as Inv. unfold in_order in Inv.
    destruct (pc_of A s) as [[| |m p todo| |]|]; try done.
    destruct Inv as (before & Hrec & _ & Hsub).
    destruct (decide (B ∈ p :: todo)); [|done].
    rewrite Hrec. by apply sublist_inserts_r. }
  split; [done|].
  etrans; [apply delivered_sublist_calls | done].
Qed.

Lemma two_offers_in_order :
  (calls_to 1 2 (log lobby_two_offers)).*1
    `sublist_of` received_by 1
      [Connect 1 []; Accepted 1 (Ok ()); Connect 2 []; Accepted 2 (Ok ());
       Received 1 (Ok "offer"); Sent 1 (Ok ());
       Received 1 (Ok "candidate"); Sent 1 (Ok ())] ∧
  delivered_to 1 2 (log lobby_two_offers)
    `sublist_of` received_by 1
      [Connect 1 []; Accepted 1 (Ok ()); Connect 2 []; Accepted 2 (Ok ());
       Received 1 (Ok "offer"); Sent 1 (Ok ());
       Received 1 (Ok "candidate"); Sent 1 (Ok ())].
Proof.
  apply (relayed_in_the_order_read _ lobby_two_offers 1 2).
  vm_compute. reflexivity.
Defined.

(** ** What one transition may change *)

Lemma handler_step_frame ws ev point rooms t' rooms' new r :
  handler_step ws ev point rooms t' rooms' new →
  r ≠ room t' → rooms' !! r = rooms !! r.
Proof.
  destruct 1; simpl; intros Hne; try done.
  - match goal with Hj : join _ _ _ = _ |- _ =>
      rewrite (join_lookup _ _ _ _ r Hj) end. by rewrite decide_False.
  - by eapply leave_lookup_ne.
  - by eapply leave_lookup_ne.
Qed.

Lemma handler_step_relay_keeps_rooms ws ev point rooms t' rooms' new :
  handler_step ws ev point rooms t' rooms' new →
  match ev with
  | Received _ (Ok _) => rooms' = rooms
  | Sent _ r => absorbed r = true → rooms' = rooms
  | _ => True
  end.
Proof. destruct 1; simpl; try done. congruence. Qed.

(** X15.  One run of a handler between two [await]s changes the registry at
    most in the room that handler resolved, and there at most by its own
    connection: every other room maps to what it did, and every other
    connection is a member of exactly the rooms it was.  A message read and
    a send that returned or raised an [Exception] change nothing in it. *)
Theorem handler_changes_only_its_own_membership ev s s' :
  step ev s = Some s' →
  (∀ c r, c ≠ event_conn ev →
     c ∈ members r (rooms s') ↔ c ∈ members r (rooms s)) ∧
  (∀ R r, room_of (event_conn ev) s' = Some R → r ≠ R →
     rooms s' !! r = rooms s !! r) ∧
  match ev with
  | Received _ (Ok _) => rooms s' = rooms s
  | Sent _ r => absorbed r = true → rooms s' = rooms s
  | _ => True
  end.
Proof.
  intros (t' & rooms' & new & Hh & ->)%step_handler_step. simpl. split_and!.
  - intros c r Hne. by eapply handler_step_members_other.
  - intros R r HR Hne. unfold room_of in HR. simpl in HR.
    rewrite lookup_insert_eq in HR. simpl in HR. simplify_eq.
    by eapply handler_step_frame.
  - by eapply handler_step_relay_keeps_rooms.
Qed.

Lemma hang_up_in_two_rooms :
  ∃ s',
    step (Received 1 (Raise WebSocketDisconnect)) two_rooms = Some s' ∧
    (∀ c r, c ≠ 1 → c ∈ members r (rooms s') ↔ c ∈ members r (rooms two_rooms)) ∧
    (∀ R r, room_of 1 s' = Some R → r ≠ R →
       rooms s' !! r = rooms two_rooms !! r) ∧
    True.
Proof.
  eexists. split; [vm_compute; reflexivity|].
  apply (handler_changes_only_its_own_membership
           (Received 1 (Raise WebSocketDisconnect)) two_rooms).
  vm_compute. reflexivity.
Defined.
